(** * photoview scanner: a shallow embedding of [api/scanner/scanner.go]

    The development follows the source file top to bottom:
    the two memoisation caches that share one [map[string]interface{}],
    the ancestor-marking loop, the top-level breadth-first traversal
    ([scan]), the containment probe ([directoryContainsPhotos]), the
    content-type classification ([isPathImage]) and the reconciliation
    pass ([cleanupCache]).

    Everything the scanner reaches outside its own file (the file system,
    the relational store, the photo-processing collaborator and the
    content sniffer) is a field of an [Environment] record, indexed by a
    logical clock so that the environment may answer differently each
    time it is asked.  Loops that the source does not bound take fuel.
    [ScanUser], which only looks the user up and starts [scan] on its own
    goroutine, is not modelled. *)

From Stdlib Require Import ZArith Lia Ascii String.
From Stdlib.Strings Require Import Byte.
From stdpp Require Import base option list strings gmap pretty.

Local Open Scope Z_scope.

(** ** Go's [path] package

    The scanner calls [path.Clean], [path.Dir], [path.Join] and
    [path.Base] of the Go standard library.  They are lexical functions on
    slash-separated strings; the model below works on the list of elements
    between slashes, which is what the library's index arithmetic
    computes. *)
Module GoPath.

Definition slash : ascii := "/"%char.

(** The elements of [s] between slashes: [split "a//b" = ["a"; ""; "b"]]. *)
Fixpoint split (s : string) : list string :=
  match s with
  | EmptyString => [EmptyString]
  | String c s' =>
      if Ascii.eqb c slash then EmptyString :: split s'
      else match split s' with
           | [] => [String c EmptyString]
           | e :: es => String c e :: es
           end
  end.

Fixpoint join_slash (es : list string) : string :=
  match es with
  | [] => ""
  | [e] => e
  | e :: es' => e +:+ "/" +:+ join_slash es'
  end.

Definition rooted (s : string) : bool :=
  match s with
  | String c _ => Ascii.eqb c slash
  | EmptyString => false
  end.

(** One element of the input consumed by [Clean]'s main loop; [out] is
    the output buffer as a stack of elements, last element first. *)
Definition clean_elem (is_rooted : bool) (out : list string) (e : string)
  : list string :=
  if String.eqb e "" then out
  else if String.eqb e "." then out
  else if String.eqb e ".." then
    match out with
    | top :: rest =>
        if String.eqb top ".." then (if is_rooted then out else e :: out)
        else rest
    | [] => if is_rooted then out else [e]
    end
  else e :: out.

Definition Clean (path : string) : string :=
  if String.eqb path "" then "."
  else
    let is_rooted := rooted path in
    let out := fold_left (clean_elem is_rooted) (split path) [] in
    let body := join_slash (rev out) in
    if is_rooted then "/" +:+ body
    else if String.eqb body "" then "." else body.

(** [Split] cuts after the final slash; [dir_part] is its first result,
    [file_part] its second. *)
Definition dir_part (path : string) : string :=
  String.concat "" (map (fun e => e +:+ "/") (removelast (split path))).

Definition file_part (path : string) : string :=
  List.last (split path) "".

Definition Dir (path : string) : string := Clean (dir_part path).

Fixpoint drop_empty (elem : list string) : list string :=
  match elem with
  | [] => []
  | e :: rest => if String.eqb e "" then drop_empty rest else elem
  end.

Definition Join (elem : list string) : string :=
  match drop_empty elem with
  | [] => ""
  | es => Clean (join_slash es)
  end.

Fixpoint strip_trailing_slashes (rev_chars : list ascii) : list ascii :=
  match rev_chars with
  | c :: rest => if Ascii.eqb c slash then strip_trailing_slashes rest
                 else rev_chars
  | [] => []
  end.

Definition Base (path : string) : string :=
  if String.eqb path "" then "."
  else
    let stripped :=
      string_of_list_ascii
        (rev (strip_trailing_slashes (rev (list_ascii_of_string path)))) in
    let last_elem := file_part stripped in
    if String.eqb last_elem "" then "/" else last_elem.

End GoPath.

(** ** The cache: [type scanner_cache map[string]interface{}]

    One Go map holds both caches; the key prefix tells them apart and the
    dynamic type of the value is checked on every read. *)
Inductive cache_value : Type :=
| StringVal (s : string)
| BoolVal (b : bool).

Abbreviation scanner_cache := (gmap string cache_value).

Definition insert_photo_type (path content_type : string)
  (cache : scanner_cache) : scanner_cache :=
  <["photo_type//" +:+ path := StringVal content_type]> cache.

Definition get_photo_type (cache : scanner_cache) (path : string)
  : option string :=
  match cache !! ("photo_type//" +:+ path) with
  | Some (StringVal result) => Some result
  | _ => None
  end.

Definition insert_album_path (path : string) (contains_photo : bool)
  (cache : scanner_cache) : scanner_cache :=
  <["album_path//" +:+ path := BoolVal contains_photo]> cache.

Definition album_contains_photo (cache : scanner_cache) (path : string)
  : option bool :=
  match cache !! ("album_path//" +:+ path) with
  | Some (BoolVal contains_photo) => Some contains_photo
  | _ => None
  end.

(** Marking a list of directories with one verdict. *)
Definition mark_all (l : list string) (b : bool) (cache : scanner_cache)
  : scanner_cache :=
  fold_left (fun c p => insert_album_path p b c) l cache.

(** ** Loops

    A Go [for] loop is a body that either hands back the next loop state
    ([inl]) or leaves the loop with a result ([inr]); the body itself may
    fail to produce anything when a loop nested in it runs out of fuel. *)
Fixpoint loop {S R : Type} (body : S -> option (S + R)) (fuel : nat) (s : S)
  : option R :=
  match fuel with
  | O => None
  | Datatypes.S fuel' =>
      match body s with
      | None => None
      | Some (inr r) => Some r
      | Some (inl s') => loop body fuel' s'
      end
  end.

(** [iterations body n s] is the loop state after [n] passes through the
    body, none of which left the loop. *)
Fixpoint iterations {S R : Type} (body : S -> option (S + R)) (n : nat) (s : S)
  : option S :=
  match n with
  | O => Some s
  | Datatypes.S n' =>
      match body s with
      | Some (inl s') => iterations body n' s'
      | _ => None
      end
  end.

(** [insert_album_paths]: the loop state is [(curr_path, cache)]. *)
Definition insert_album_paths_body (root_path : string) (contains_photo : bool)
  (s : string * scanner_cache)
  : option (string * scanner_cache + scanner_cache) :=
  let '(curr_path, cache) := s in
  if negb (String.eqb curr_path root_path) || String.eqb curr_path "." then
    Some (inl (GoPath.Dir curr_path,
               insert_album_path curr_path contains_photo cache))
  else Some (inr cache).

Definition insert_album_paths (fuel : nat) (end_path root : string)
  (contains_photo : bool) (cache : scanner_cache) : option scanner_cache :=
  let curr_path := GoPath.Clean end_path in
  let root_path := GoPath.Clean root in
  loop (insert_album_paths_body root_path contains_photo) fuel
       (curr_path, cache).

(** The paths the loop passes through: [n] applications of [path.Dir]. *)
Fixpoint ancestors (n : nat) (curr_path : string) : list string :=
  match n with
  | O => []
  | Datatypes.S n' => curr_path :: ancestors n' (GoPath.Dir curr_path)
  end.

(** ** The relational store

    Only the [album] table is read and written by the scanner itself; the
    tables of the photo-processing collaborator are carried as a value of
    an arbitrary type [P]. *)
Record album_row : Type := {
  row_album_id : Z;
  row_title : string;
  row_parent_album : option Z;
  row_owner_id : Z;
  row_path : string
}.

Record Database (P : Type) : Type := {
  album : list album_row;
  album_auto_increment : Z;
  photos : P
}.
Arguments album {P} _.
Arguments album_auto_increment {P} _.
Arguments photos {P} _.

Record User : Type := {
  UserID : Z;
  Username : string;
  RootPath : string
}.

(** ** The environment *)
Record FileInfo : Type := {
  Name : string;
  IsDir : bool
}.

(** What [os.Open] followed by [file.Read(head)] gives. *)
Inductive FileRead : Type :=
| OpenError
| ReadError
| Head (head : list byte).

(** Everything observable that a run does, in program order.  A log line
    keeps its format string, written as in the source, and the arguments
    whose text is known (paths, content types, counts); the text of a Go
    [error] is not modelled. *)
Inductive Event (P : Type) : Type :=
| ReadDir_ev (dirname : string) (ok : bool)
| Open_ev (file : string)
| Begin_ev (ok : bool)
| Exec_ev (ok : bool)
| QueryRow_ev (ok : bool)
| Commit_ev (tx : Database P) (ok : bool)
| Rollback_ev
| ProcessImage_ev (photoPath : string) (albumId : Z) (content_type : string)
    (ok : bool)
| Query_ev (ok : bool)
| RemoveAll_ev (cache_path : string) (ok : bool)
| Delete_ev (ok : bool)
| Log_ev (format : string) (args : list string).
Arguments ReadDir_ev {P} _ _.
Arguments Open_ev {P} _.
Arguments Begin_ev {P} _.
Arguments Exec_ev {P} _.
Arguments QueryRow_ev {P} _.
Arguments Commit_ev {P} _ _.
Arguments Rollback_ev {P}.
Arguments ProcessImage_ev {P} _ _ _ _.
Arguments Query_ev {P} _.
Arguments RemoveAll_ev {P} _ _.
Arguments Delete_ev {P} _.
Arguments Log_ev {P} _ _.

(** The oracles.  Each takes the logical time of the call (the number of
    events so far), so a file or the store may answer differently later in
    the same run.
    - [album_unique] says when two rows collide on a UNIQUE key of the
      [album] table; the schema is not part of this source file.
    - [sql_fails] says whether the statement issued at that time errors.
    - [ProcessImage] receives the open transaction and gives back what it
      wrote into it, and whether it succeeded. *)
Record Environment (P : Type) : Type := {
  ioutil_ReadDir : nat -> string -> option (list FileInfo);
  os_Open : nat -> string -> FileRead;
  filetype_Image : list byte -> option string;
  os_RemoveAll : nat -> string -> bool;
  sql_fails : nat -> bool;
  album_unique : album_row -> album_row -> bool;
  ProcessImage :
    nat -> Database P -> string -> Z -> string -> Database P * bool
}.
Arguments ioutil_ReadDir {P} _ _ _.
Arguments os_Open {P} _ _ _.
Arguments filetype_Image {P} _ _.
Arguments os_RemoveAll {P} _ _ _.
Arguments sql_fails {P} _ _.
Arguments album_unique {P} _ _ _.
Arguments ProcessImage {P} _ _ _ _ _ _.

Record World (P : Type) : Type := {
  cache : scanner_cache;
  database : Database P;
  trace : list (Event P)
}.
Arguments cache {P} _.
Arguments database {P} _.
Arguments trace {P} _.

Definition now {P} (w : World P) : nat := length (trace w).

Definition emit {P} (evs : list (Event P)) (w : World P) : World P :=
  {| cache := cache w; database := database w; trace := trace w ++ evs |}.

Definition set_cache {P} (c : scanner_cache) (w : World P) : World P :=
  {| cache := c; database := database w; trace := trace w |}.

Definition set_database {P} (db : Database P) (w : World P) : World P :=
  {| cache := cache w; database := db; trace := trace w |}.

(** ** Classification: [isPathImage] *)
Definition SupportedMimetypes : list string :=
  ["image/jpeg"; "image/png"; "image/tiff"; "image/webp";
   "image/x-canon-cr2"; "image/bmp"].

Definition WebMimetypes : list string :=
  ["image/jpeg"; "image/png"; "image/webp"; "image/bmp"].

Definition isPathImage {P} (E : Environment P) (path : string) (w : World P)
  : bool * World P :=
  match get_photo_type (cache w) path with
  | Some _ => (true, w)
  | None =>
      match os_Open E (now w) path with
      | OpenError =>
          (false,
           emit [Open_ev path; Log_ev "Could not open file %s: %s\n" [path]]
                w)
      | ReadError =>
          (false,
           emit [Open_ev path; Log_ev "Could not read file %s: %s\n" [path]]
                w)
      | Head head =>
          let w1 := emit [Open_ev path] w in
          match filetype_Image E head with
          | None => (false, w1)
          | Some mime =>
              match find (fun supported_mime => String.eqb supported_mime mime)
                         SupportedMimetypes with
              | Some supported_mime =>
                  (true,
                   set_cache (insert_photo_type path supported_mime (cache w1))
                             w1)
              | None =>
                  (false,
                   emit [Log_ev "Unsupported image %s of type %s\n"
                                [path; mime]] w1)
              end
          end
      end
  end.

(** ** The containment probe: [directoryContainsPhotos] *)
Record probe_state (P : Type) : Type := {
  p_scanQueue : list string;
  p_scanned_directories : list string;
  p_world : World P
}.
Arguments p_scanQueue {P} _.
Arguments p_scanned_directories {P} _.
Arguments p_world {P} _.

(** The inner [for _, fileInfo := range dirContent]: [inl] when the range
    is exhausted, [inr] when a file classified as an image. *)
Fixpoint probe_entries {P} (E : Environment P) (dirPath : string)
  (dirContent : list FileInfo) (scanQueue : list string) (w : World P)
  : list string * World P + World P :=
  match dirContent with
  | [] => inl (scanQueue, w)
  | fileInfo :: rest =>
      let filePath := GoPath.Join [dirPath; Name fileInfo] in
      if IsDir fileInfo then
        probe_entries E dirPath rest (scanQueue ++ [filePath]) w
      else
        let '(is_image, w1) := isPathImage E filePath w in
        if is_image then inr w1
        else probe_entries E dirPath rest scanQueue w1
  end.

Definition mark_scanned {P} (scanned_directories : list string) (w : World P)
  : World P :=
  set_cache (mark_all scanned_directories false (cache w)) w.

Definition probe_body {P} (E : Environment P) (fuel : nat) (rootPath : string)
  (s : probe_state P) : option (probe_state P + bool * World P) :=
  let w := p_world s in
  match p_scanQueue s with
  | [] => Some (inr (false, mark_scanned (p_scanned_directories s) w))
  | dirPath :: scanQueue =>
      let scanned_directories := p_scanned_directories s ++ [dirPath] in
      match ioutil_ReadDir E (now w) dirPath with
      | None =>
          Some (inr (false,
                     emit [ReadDir_ev dirPath false;
                           Log_ev "Could not read directory: %s\n" []] w))
      | Some dirContent =>
          match probe_entries E dirPath dirContent scanQueue
                  (emit [ReadDir_ev dirPath true] w) with
          | inr w1 =>
              match insert_album_paths fuel dirPath rootPath true (cache w1)
              with
              | Some c => Some (inr (true, set_cache c w1))
              | None => None
              end
          | inl (scanQueue', w1) =>
              Some (inl {| p_scanQueue := scanQueue';
                           p_scanned_directories := scanned_directories;
                           p_world := w1 |})
          end
      end
  end.

Definition probe_init {P} (rootPath : string) (w : World P) : probe_state P :=
  {| p_scanQueue := [rootPath]; p_scanned_directories := []; p_world := w |}.

Definition directoryContainsPhotos {P} (E : Environment P) (fuel : nat)
  (rootPath : string) (w : World P) : option (bool * World P) :=
  match album_contains_photo (cache w) rootPath with
  | Some contains_image => Some (contains_image, w)
  | None => loop (probe_body E fuel rootPath) fuel (probe_init rootPath w)
  end.

(** ** SQL statements on the [album] table *)

(** [INSERT IGNORE INTO album (title, parent_album, owner_id, path)]: the
    row gets the next [album_id]; it is dropped when it collides with a
    stored row on a UNIQUE key. *)
Definition insert_ignore_album {P} (E : Environment P) (albumTitle : string)
  (albumParentId : option Z) (owner : Z) (albumPath : string)
  (tx : Database P) : Database P :=
  let row := {| row_album_id := album_auto_increment tx;
                row_title := albumTitle;
                row_parent_album := albumParentId;
                row_owner_id := owner;
                row_path := albumPath |} in
  if existsb (album_unique E row) (album tx) then tx
  else {| album := album tx ++ [row];
          album_auto_increment := album_auto_increment tx + 1;
          photos := photos tx |}.

(** [SELECT album_id FROM album WHERE path = ?], first row of the result. *)
Definition select_album_id {P} (albumPath : string) (tx : Database P)
  : option Z :=
  row_album_id <$> find (fun r => String.eqb (row_path r) albumPath) (album tx).

(** [SELECT album_id FROM album WHERE album.owner_id = ? AND path NOT IN (...)] *)
Definition select_unscanned_ids {P} (owner : Z) (scanned_albums : list string)
  (db : Database P) : list Z :=
  row_album_id <$>
    filter (fun r => row_owner_id r = owner ∧ row_path r ∉ scanned_albums)
           (album db).

(** [DELETE FROM album WHERE album_id IN (...)] *)
Definition delete_albums {P} (deleted_ids : list Z) (db : Database P)
  : Database P :=
  {| album := filter (fun r => row_album_id r ∉ deleted_ids) (album db);
     album_auto_increment := album_auto_increment db;
     photos := photos db |}.

(** ** The reconciliation pass: [cleanupCache] *)
Definition Itoa (i : Z) : string := pretty i.

(** The [for rows.Next()] loop. *)
Fixpoint remove_cache_dirs {P} (E : Environment P) (rows : list Z)
  (deleted_albums : nat) (deleted_ids : list Z) (w : World P)
  : nat * list Z * World P :=
  match rows with
  | [] => (deleted_albums, deleted_ids, w)
  | album_id :: rest =>
      let deleted_ids := deleted_ids ++ [album_id] in
      let cache_path := GoPath.Join ["./image-cache"; Itoa album_id] in
      if os_RemoveAll E (now w) cache_path then
        remove_cache_dirs E rest (Datatypes.S deleted_albums) deleted_ids
          (emit [RemoveAll_ev cache_path true] w)
      else
        remove_cache_dirs E rest deleted_albums deleted_ids
          (emit [RemoveAll_ev cache_path false;
                 Log_ev "ERROR: Could not delete unused cache folder: %s\n%s\n"
                        [cache_path]] w)
  end.

Definition cleanupCache {P} (E : Environment P) (scanned_albums : list string)
  (user : User) (w : World P) : World P :=
  if Nat.eqb (length scanned_albums) 0 then w
  else if sql_fails E (now w) then
    emit [Query_ev false;
          Log_ev "ERROR: Could not get albums from database: %s\n" []] w
  else
    let rows := select_unscanned_ids (UserID user) scanned_albums (database w) in
    let '(deleted_albums, deleted_ids, w1) :=
      remove_cache_dirs E rows 0%nat [] (emit [Query_ev true] w) in
    let w2 :=
      if Nat.ltb 0 (length deleted_ids) then
        if sql_fails E (now w1) then
          emit [Delete_ev false;
                Log_ev "ERROR: Could not delete old albums from database:\n%s\n"
                       []] w1
        else
          emit [Delete_ev true]
               (set_database (delete_albums deleted_ids (database w1)) w1)
      else w1 in
    emit [Log_ev "Deleted %d unused albums from cache"
                 [Itoa (Z.of_nat deleted_albums)]] w2.

(** ** The traversal: [scan] *)
Record scanInfo : Type := {
  si_path : string;
  si_parentId : option Z
}.

Record scan_state (P : Type) : Type := {
  s_scanQueue : list scanInfo;
  s_album_paths_scanned : list string;
  s_world : World P
}.
Arguments s_scanQueue {P} _.
Arguments s_album_paths_scanned {P} _.
Arguments s_world {P} _.

(** How the traversal loop is left: its condition fails ([Drained]) or a
    [return] inside it ends [scan] ([Returned]). *)
Inductive scan_exit (P : Type) : Type :=
| Drained (album_paths_scanned : list string) (w : World P)
| Returned (w : World P).
Arguments Drained {P} _ _.
Arguments Returned {P} _.

(** The [// Scan for photos] loop: [inl] when the range is exhausted,
    [inr] when [scan] returns from inside it. *)
Fixpoint scan_photos {P} (E : Environment P) (albumPath : string) (albumId : Z)
  (dirContent : list FileInfo) (w : World P) : World P + World P :=
  match dirContent with
  | [] => inl w
  | item :: rest =>
      let photoPath := GoPath.Join [albumPath; Name item] in
      if IsDir item then scan_photos E albumPath albumId rest w
      else
        let '(is_image, w1) := isPathImage E photoPath w in
        if negb is_image then scan_photos E albumPath albumId rest w1
        else if sql_fails E (now w1) then
          inr (emit [Begin_ev false;
                     Log_ev "ERROR: Could not begin database transaction for image %s: %s\n"
                            [photoPath]] w1)
        else
          let tx := database w1 in
          let w2 := emit [Begin_ev true] w1 in
          match get_photo_type (cache w2) photoPath with
          | None => inr (emit [Log_ev "Content type not found from cache" []] w2)
          | Some content_type =>
              let '(tx', ok) :=
                ProcessImage E (now w2) tx photoPath albumId content_type in
              let w3 :=
                emit [ProcessImage_ev photoPath albumId content_type ok] w2 in
              if ok then
                if sql_fails E (now w3) then
                  scan_photos E albumPath albumId rest
                    (emit [Commit_ev tx' false] w3)
                else
                  scan_photos E albumPath albumId rest
                    (emit [Commit_ev tx' true] (set_database tx' w3))
              else
                inr (emit [Log_ev "ERROR: processing image %s: %s" [photoPath];
                           Rollback_ev] w3)
          end
  end.

(** The [// Scan for sub-albums] loop. *)
Fixpoint scan_subalbums {P} (E : Environment P) (fuel : nat)
  (albumPath : string) (albumId : Z) (dirContent : list FileInfo)
  (scanQueue : list scanInfo) (w : World P)
  : option (list scanInfo * World P) :=
  match dirContent with
  | [] => Some (scanQueue, w)
  | item :: rest =>
      let subalbumPath := GoPath.Join [albumPath; Name item] in
      if IsDir item then
        match directoryContainsPhotos E fuel subalbumPath w with
        | None => None
        | Some (true, w1) =>
            scan_subalbums E fuel albumPath albumId rest
              (scanQueue ++ [{| si_path := subalbumPath;
                                si_parentId := Some albumId |}]) w1
        | Some (false, w1) =>
            scan_subalbums E fuel albumPath albumId rest scanQueue w1
        end
      else scan_subalbums E fuel albumPath albumId rest scanQueue w
  end.

(** The album transaction of one directory: [inl (albumId, w)] after the
    commit, [inr w] when [scan] returns. *)
Definition album_transaction {P} (E : Environment P) (user : User)
  (albumPath : string) (albumParentId : option Z) (w : World P)
  : Z * World P + World P :=
  if sql_fails E (now w) then
    inr (emit [Begin_ev false;
               Log_ev "ERROR: Could not begin database transaction: %s\n" []] w)
  else
    let tx := database w in
    let w1 := emit [Begin_ev true; Log_ev "Scanning directory: %s" [albumPath]]
                   w in
    let albumTitle := GoPath.Base albumPath in
    if sql_fails E (now w1) then
      inr (emit [Exec_ev false;
                 Log_ev "ERROR: Could not insert album into database: %s\n" [];
                 Rollback_ev] w1)
    else
      let tx := insert_ignore_album E albumTitle albumParentId (UserID user)
                                    albumPath tx in
      let w2 := emit [Exec_ev true] w1 in
      match (if sql_fails E (now w2) then None
             else select_album_id albumPath tx) with
      | None =>
          inr (emit [QueryRow_ev false;
                     Log_ev "ERROR: Could not get id of album: %s\n" [];
                     Rollback_ev] w2)
      | Some albumId =>
          let w3 := emit [QueryRow_ev true] w2 in
          if sql_fails E (now w3) then
            inr (emit [Commit_ev tx false;
                       Log_ev "ERROR: Could not commit database transaction: %s\n"
                              []] w3)
          else inl (albumId, emit [Commit_ev tx true] (set_database tx w3))
      end.

Definition scan_body {P} (E : Environment P) (fuel : nat) (user : User)
  (s : scan_state P) : option (scan_state P + scan_exit P) :=
  let w := s_world s in
  match s_scanQueue s with
  | [] => Some (inr (Drained (s_album_paths_scanned s) w))
  | albumInfo :: scanQueue =>
      let albumPath := si_path albumInfo in
      let albumParentId := si_parentId albumInfo in
      let album_paths_scanned := s_album_paths_scanned s ++ [albumPath] in
      match ioutil_ReadDir E (now w) albumPath with
      | None =>
          Some (inr (Returned
                       (emit [ReadDir_ev albumPath false;
                              Log_ev "Could not read directory: %s\n" []] w)))
      | Some dirContent =>
          match album_transaction E user albumPath albumParentId
                  (emit [ReadDir_ev albumPath true] w) with
          | inr w1 => Some (inr (Returned w1))
          | inl (albumId, w1) =>
              match scan_photos E albumPath albumId dirContent w1 with
              | inr w2 => Some (inr (Returned w2))
              | inl w2 =>
                  match scan_subalbums E fuel albumPath albumId dirContent
                          scanQueue w2 with
                  | None => None
                  | Some (scanQueue', w3) =>
                      Some (inl {| s_scanQueue := scanQueue';
                                   s_album_paths_scanned := album_paths_scanned;
                                   s_world := w3 |})
                  end
              end
          end
      end
  end.

Definition fresh_world {P} (db : Database P) : World P :=
  {| cache := ∅; database := db; trace := [] |}.

Definition scan_init {P} (user : User) (db : Database P) : scan_state P :=
  {| s_scanQueue := [{| si_path := RootPath user; si_parentId := None |}];
     s_album_paths_scanned := [];
     s_world := fresh_world db |}.

(** [scan(database, user)]: the cache is made here and lives for this one
    run; the trace starts empty. *)
Definition scan {P} (E : Environment P) (fuel : nat) (user : User)
  (db : Database P) : option (World P) :=
  match loop (scan_body E fuel user) fuel (scan_init user db) with
  | None => None
  | Some (Returned w') => Some w'
  | Some (Drained album_paths_scanned w') =>
      Some (emit [Log_ev "Done scanning" []]
                 (cleanupCache E album_paths_scanned user w'))
  end.

(** ** A concrete environment

    A small file system used to run the model: root [/R] with one image
    at [/R/x/y/z/img.jpg] and a directory [/R/x/y/z/later] listed before
    the image; [/E] with an empty directory, a PDF and an unreadable file;
    [/L] with an unreadable directory; [/B] with a good and a bad image;
    and the relative root [.] with one image.  The collaborator's tables
    are the list of [(path, album id, content type)] it was handed; it
    rejects the file named [bad.jpg].  Removing [image-cache/3] fails. *)
Definition dir (name : string) : FileInfo :=
  {| Name := name; IsDir := true |}.
Definition file (name : string) : FileInfo :=
  {| Name := name; IsDir := false |}.

Definition demo_ReadDir (t : nat) (dirname : string) : option (list FileInfo) :=
  if String.eqb dirname "/R" then Some [dir "x"]
  else if String.eqb dirname "/R/x" then Some [dir "y"]
  else if String.eqb dirname "/R/x/y" then Some [dir "z"]
  else if String.eqb dirname "/R/x/y/z" then
    Some [dir "later"; file "img.jpg"]
  else if String.eqb dirname "/R/x/y/z/later" then Some []
  else if String.eqb dirname "/E" then
    Some [dir "f"; file "doc.pdf"; file "gone"]
  else if String.eqb dirname "/E/f" then Some []
  else if String.eqb dirname "/L" then Some [dir "locked"; dir "f"]
  else if String.eqb dirname "/L/f" then Some []
  else if String.eqb dirname "/B" then
    Some [file "ok.jpg"; file "bad.jpg"; dir "sub"]
  else if String.eqb dirname "/B/sub" then Some [file "ok.jpg"]
  else if String.eqb dirname "." then Some [file "img.jpg"]
  else None.

Definition ends_with (suffix s : string) : bool :=
  String.eqb
    (String.substring (String.length s - String.length suffix)
                      (String.length suffix) s)
    suffix.

Definition demo_Open (t : nat) (path : string) : FileRead :=
  if ends_with ".jpg" path then Head [xff; xd8; xff]
  else if ends_with ".pdf" path then Head [x25; x50; x44; x46]
  else OpenError.

Definition demo_Image (head : list byte) : option string :=
  match head with
  | xff :: _ => Some "image/jpeg"
  | x25 :: _ => Some "application/pdf"
  | _ => None
  end.

Definition demo_Photos : Type := list (string * Z * string).

Definition demo_ProcessImage (t : nat) (tx : Database demo_Photos)
  (photoPath : string) (albumId : Z) (content_type : string)
  : Database demo_Photos * bool :=
  ({| album := album tx;
      album_auto_increment := album_auto_increment tx;
      photos := photos tx ++ [(photoPath, albumId, content_type)] |},
   negb (ends_with "bad.jpg" photoPath)).

(** The two readings of the missing schema: [path] UNIQUE on its own, or
    UNIQUE together with [owner_id]. *)
Definition unique_path (r1 r2 : album_row) : bool :=
  String.eqb (row_path r1) (row_path r2).

Definition unique_owner_path (r1 r2 : album_row) : bool :=
  Z.eqb (row_owner_id r1) (row_owner_id r2)
  && String.eqb (row_path r1) (row_path r2).

Definition demo_env (unique : album_row -> album_row -> bool)
  : Environment demo_Photos :=
  {| ioutil_ReadDir := demo_ReadDir;
     os_Open := demo_Open;
     filetype_Image := demo_Image;
     os_RemoveAll :=
       fun _ cache_path => negb (String.eqb cache_path "image-cache/3");
     sql_fails := fun _ => false;
     album_unique := unique;
     ProcessImage := demo_ProcessImage |}.

Definition empty_db : Database demo_Photos :=
  {| album := []; album_auto_increment := 1; photos := [] |}.

Definition demo_world : World demo_Photos := fresh_world empty_db.

Definition user_R : User :=
  {| UserID := 1; Username := "r"; RootPath := "/R" |}.
Definition user_B : User :=
  {| UserID := 2; Username := "b"; RootPath := "/B" |}.

Definition E0 : Environment demo_Photos := demo_env unique_owner_path.

(** More stores and users for the examples. *)
Definition album_A : album_row :=
  {| row_album_id := 1; row_title := "A"; row_parent_album := None;
     row_owner_id := 1; row_path := "A" |}.
Definition album_AB : album_row :=
  {| row_album_id := 2; row_title := "B"; row_parent_album := Some 1;
     row_owner_id := 1; row_path := "A/B" |}.
Definition album_AC : album_row :=
  {| row_album_id := 3; row_title := "C"; row_parent_album := Some 1;
     row_owner_id := 1; row_path := "A/C" |}.
Definition album_other : album_row :=
  {| row_album_id := 4; row_title := "C"; row_parent_album := None;
     row_owner_id := 2; row_path := "A/C" |}.

Definition db_abc : Database demo_Photos :=
  {| album := [album_A; album_AB; album_AC; album_other];
     album_auto_increment := 5; photos := [] |}.

Definition db_owner1 : Database demo_Photos :=
  {| album := [{| row_album_id := 1; row_title := "R";
                  row_parent_album := None; row_owner_id := 1;
                  row_path := "/R" |}];
     album_auto_increment := 2; photos := [] |}.

Definition user_R2 : User :=
  {| UserID := 2; Username := "r2"; RootPath := "/R" |}.

Definition ids_and_owners {P} (db : Database P) : list (Z * Z) :=
  (fun r => (row_album_id r, row_owner_id r)) <$> album db.

Definition user_E : User :=
  {| UserID := 3; Username := "e"; RootPath := "/E" |}.

(** ** Vocabulary of the statements *)

(** What a cache miss makes [isPathImage] find out at time [t]: the
    supported content type the header sniffs to, if any. *)
Definition sniffs {P} (E : Environment P) (t : nat) (path : string)
  : option string :=
  match os_Open E t path with
  | Head head =>
      match filetype_Image E head with
      | Some mime =>
          find (fun supported_mime => String.eqb supported_mime mime)
               SupportedMimetypes
      | None => None
      end
  | _ => None
  end.

(** Every type-cache entry was sniffed from the file at some time. *)
Definition cache_justified {P} (E : Environment P) (c : scanner_cache) : Prop :=
  forall p m, get_photo_type c p = Some m -> exists t, sniffs E t p = Some m.

Definition classify_event {P} (e : Event P) : Prop :=
  match e with
  | Open_ev _ => True
  | Log_ev format _ =>
      format ∈ ["Could not open file %s: %s\n"; "Could not read file %s: %s\n";
                "Unsupported image %s of type %s\n"]
  | _ => False
  end.

Definition probe_event {P} (e : Event P) : Prop :=
  match e with
  | ReadDir_ev _ _ => True
  | Log_ev format _ =>
      format ∈ ["Could not open file %s: %s\n"; "Could not read file %s: %s\n";
                "Unsupported image %s of type %s\n";
                "Could not read directory: %s\n"]
  | Open_ev _ => True
  | _ => False
  end.

(** [grows E Q w w']: from [w] to [w'] the store is untouched, the events
    added all satisfy [Q], and every new type-cache entry was sniffed. *)
Definition grows {P} (E : Environment P) (Q : Event P -> Prop)
  (w w' : World P) : Prop :=
  database w' = database w
  /\ (exists evs, trace w' = trace w ++ evs /\ Forall Q evs)
  /\ (forall p m, get_photo_type (cache w') p = Some m ->
        get_photo_type (cache w) p = Some m \/ exists t, sniffs E t p = Some m).

(** The directories a run listed, in order. *)
Definition listed_dirs {P} (evs : list (Event P)) : list string :=
  omap (fun e => match e with ReadDir_ev d _ => Some d | _ => None end) evs.

(** What holds of the probe's loop state as long as no file has classified
    as an image and no listing has failed: the cache is still the one the
    probe started with, and the directories dequeued so far are exactly
    the ones listed. *)
Definition probe_inv {P} (rootPath : string) (w : World P) (s : probe_state P)
  : Prop :=
  cache (p_world s) = cache w
  /\ database (p_world s) = database w
  /\ (exists evs, trace (p_world s) = trace w ++ evs
        /\ Forall probe_event evs
        /\ listed_dirs evs = p_scanned_directories s)
  /\ ((p_scanned_directories s = [] /\ p_scanQueue s = [rootPath])
      \/ rootPath ∈ p_scanned_directories s).

(** The committed state of the store after a sequence of events. *)
Definition last_commit {P} (db : Database P) (evs : list (Event P))
  : Database P :=
  fold_left (fun db e => match e with Commit_ev tx true => tx | _ => db end)
            evs db.

(** Events of the part of a run that came through without a rejected
    photo: no failed [ProcessImage], every file handed to [ProcessImage]
    was sniffed as the content type it is handed with, nothing from the
    reconciliation pass, and no cache-miss message. *)
Definition walk_event {P} (E : Environment P) (e : Event P) : Prop :=
  match e with
  | ProcessImage_ev photoPath _ content_type ok =>
      ok = true /\ exists t, sniffs E t photoPath = Some content_type
  | Log_ev format _ =>
      format ∈ ["Could not open file %s: %s\n"; "Could not read file %s: %s\n";
                "Unsupported image %s of type %s\n";
                "Could not read directory: %s\n";
                "ERROR: Could not begin database transaction: %s\n";
                "Scanning directory: %s";
                "ERROR: Could not insert album into database: %s\n";
                "ERROR: Could not get id of album: %s\n";
                "ERROR: Could not commit database transaction: %s\n";
                "ERROR: Could not begin database transaction for image %s: %s\n"]
  | Query_ev _ | RemoveAll_ev _ _ | Delete_ev _ => False
  | _ => True
  end.

(** Events of the reconciliation pass and of the end of [scan]. *)
Definition sweep_event {P} (e : Event P) : Prop :=
  match e with
  | Query_ev _ | RemoveAll_ev _ _ | Delete_ev _ => True
  | Log_ev format _ =>
      format ∈ ["ERROR: Could not get albums from database: %s\n";
                "ERROR: Could not delete unused cache folder: %s\n%s\n";
                "ERROR: Could not delete old albums from database:\n%s\n";
                "Deleted %d unused albums from cache";
                "Done scanning"]
  | _ => False
  end.

Definition walk_inv {P} (E : Environment P) (db0 : Database P) (w : World P)
  : Prop :=
  Forall (walk_event E) (trace w)
  /\ cache_justified E (cache w)
  /\ database w = last_commit db0 (trace w).

(** The events with which [scan] returns after a failed [ProcessImage]. *)
Definition rejected_tail {P} (photoPath : string) (albumId : Z)
  (content_type : string) : list (Event P) :=
  [ProcessImage_ev photoPath albumId content_type false;
   Log_ev "ERROR: processing image %s: %s" [photoPath];
   Rollback_ev].

(** What holds of the world [scan] ends in: its trace is a walk followed
    either by the three events of a rejected photo, with the store as the
    walk's last commit left it, or by the reconciliation pass. *)
Definition scan_outcome {P} (E : Environment P) (db0 : Database P)
  (w : World P) : Prop :=
  cache_justified E (cache w)
  /\ exists good tail,
       trace w = good ++ tail
       /\ Forall (walk_event E) good
       /\ ((exists photoPath albumId content_type,
              tail = rejected_tail photoPath albumId content_type
              /\ (exists t, sniffs E t photoPath = Some content_type)
              /\ database w = last_commit db0 good)
           \/ Forall sweep_event tail).

(** The discipline of transactions along a trace.  [open] says whether a
    transaction is open; the result is the same flag at the end of the
    trace, or [None] when the trace breaks the discipline: a transaction
    begun inside another, a statement on a transaction handle, a commit or
    a rollback with no transaction open, or a statement of the
    reconciliation pass, which goes to the database handle, while one is
    open. *)
Fixpoint tx_discipline {P} (open : bool) (evs : list (Event P)) : option bool :=
  match evs with
  | [] => Some open
  | e :: rest =>
      match e with
      | Begin_ev ok => if open then None else tx_discipline ok rest
      | Commit_ev _ _ | Rollback_ev =>
          if open then tx_discipline false rest else None
      | Exec_ev _ | QueryRow_ev _ | ProcessImage_ev _ _ _ _ =>
          if open then tx_discipline true rest else None
      | Query_ev _ | Delete_ev _ =>
          if open then None else tx_discipline false rest
      | _ => tx_discipline open rest
      end
  end.

(** No transaction is open at the end of the trace of [w], and the trace
    kept the discipline. *)
Definition tx_closed {P} (w : World P) : Prop :=
  tx_discipline false (trace w) = Some false.

(** The number of derived-cache directories a trace removed. *)
Fixpoint removed_count {P} (evs : list (Event P)) : nat :=
  match evs with
  | [] => 0
  | RemoveAll_ev _ true :: rest => Datatypes.S (removed_count rest)
  | _ :: rest => removed_count rest
  end.

(** An environment whose third SQL statement fails, and a user whose root
    does not exist. *)
Definition E_sql : Environment demo_Photos :=
  {| ioutil_ReadDir := demo_ReadDir;
     os_Open := demo_Open;
     filetype_Image := demo_Image;
     os_RemoveAll := fun _ _ => true;
     sql_fails := fun t => Nat.eqb t 3;
     album_unique := unique_owner_path;
     ProcessImage := demo_ProcessImage |}.

Definition user_nowhere : User :=
  {| UserID := 4; Username := "n"; RootPath := "/nowhere" |}.

(** An environment in which every removal of a directory succeeds and the
    statement issued at time 2 fails: in a reconciliation pass that starts
    at time 0 and removes one directory, that statement is the DELETE. *)
Definition E_delete_fails : Environment demo_Photos :=
  {| ioutil_ReadDir := demo_ReadDir;
     os_Open := demo_Open;
     filetype_Image := demo_Image;
     os_RemoveAll := fun _ _ => true;
     sql_fails := fun t => Nat.eqb t 2;
     album_unique := unique_owner_path;
     ProcessImage := demo_ProcessImage |}.

(** * Properties *)

(** ** Go's [path] on the model: the library's own test tables *)
Example Clean_table :
  map GoPath.Clean
    [""; "abc"; "abc/def"; "a/b/c"; "."; ".."; "../.."; "../../abc"; "/abc";
     "/"; "abc/"; "abc/def/"; "./"; "../"; "../../"; "/abc/";
     "abc//def//ghi"; "//abc"; "///abc"; "//abc//"; "abc//";
     "abc/./def"; "/./abc/def"; "abc/.";
     "abc/def/ghi/../jkl"; "abc/def/../ghi/../jkl"; "abc/def/..";
     "abc/def/../.."; "/abc/def/../.."; "abc/def/../../..";
     "/abc/def/../../.."; "abc/def/../../../ghi/jkl/../../../mno";
     "abc/./../def"; "abc//./../def"; "abc/../../././../def"]
  = ["."; "abc"; "abc/def"; "a/b/c"; "."; ".."; "../.."; "../../abc"; "/abc";
     "/"; "abc"; "abc/def"; "."; ".."; "../.."; "/abc";
     "abc/def/ghi"; "/abc"; "/abc"; "/abc"; "abc";
     "abc/def"; "/abc/def"; "abc";
     "abc/def/jkl"; "abc/jkl"; "abc";
     "."; "/"; "..";
     "/"; "../../mno";
     "def"; "def"; "../../def"].
Proof. vm_compute. reflexivity. Qed.

Example Dir_table :
  map GoPath.Dir [""; "abc"; "abc/def"; "abc////def"; "a/b/.x"; "a/b/c.";
                  "a/b/c.x"; "/"; "/abc"; "."]
  = ["."; "."; "abc"; "abc"; "a/b"; "a/b"; "a/b"; "/"; "/"; "."].
Proof. vm_compute. reflexivity. Qed.

Example Join_table :
  map GoPath.Join [[]; [""]; ["a"]; ["a"; "b"]; ["a"; ""]; [""; "b"];
                   ["/"; "a"]; ["/"; ""]; ["a/"; "b"]; ["a/"; ""]; [""; ""]]
  = [""; ""; "a"; "a/b"; "a"; "b"; "/a"; "/"; "a/b"; "a"; ""].
Proof. vm_compute. reflexivity. Qed.

Example Base_table :
  map GoPath.Base [""; "."; "/."; "/"; "////"; "x/"; "abc"; "abc/def";
                   "a/b/.x"; "a/b/c."; "a/b/c.x"]
  = ["."; "."; "."; "/"; "/"; "x"; "abc"; "def"; ".x"; "c."; "c.x"].
Proof. vm_compute. reflexivity. Qed.

Lemma Dir_dot : GoPath.Dir "." = ".".
Proof. reflexivity. Qed.

(** ** The two caches do not interfere *)
Section CacheLemmas.
Implicit Types (cache : scanner_cache) (p q : string).

Lemma album_key_inj p q : "album_path//" +:+ p = "album_path//" +:+ q -> p = q.
Proof. cbn. intros H. by simplify_eq. Qed.

Lemma photo_key_inj p q : "photo_type//" +:+ p = "photo_type//" +:+ q -> p = q.
Proof. cbn. intros H. by simplify_eq. Qed.

Lemma photo_album_key_ne p q : "photo_type//" +:+ p ≠ "album_path//" +:+ q.
Proof. cbn. intros H. discriminate H. Qed.

Lemma get_photo_type_insert_album cache p q b :
  get_photo_type (insert_album_path q b cache) p = get_photo_type cache p.
Proof.
  unfold get_photo_type, insert_album_path.
  rewrite lookup_insert_ne; [done|]. intros H. by apply (photo_album_key_ne p q).
Qed.

Lemma album_contains_photo_insert_photo cache p q m :
  album_contains_photo (insert_photo_type q m cache) p
  = album_contains_photo cache p.
Proof.
  unfold album_contains_photo, insert_photo_type.
  rewrite lookup_insert_ne; [done|]. apply photo_album_key_ne.
Qed.

Lemma get_photo_type_insert_photo cache p q m :
  get_photo_type (insert_photo_type q m cache) p
  = if decide (q = p) then Some m else get_photo_type cache p.
Proof.
  unfold get_photo_type, insert_photo_type. case_decide as Hpq.
  - subst. by rewrite lookup_insert_eq.
  - rewrite lookup_insert_ne; [done|]. intros H. by apply Hpq, photo_key_inj.
Qed.

Lemma album_contains_photo_insert_album cache p q b :
  album_contains_photo (insert_album_path q b cache) p
  = if decide (q = p) then Some b else album_contains_photo cache p.
Proof.
  unfold album_contains_photo, insert_album_path. case_decide as Hpq.
  - subst. by rewrite lookup_insert_eq.
  - rewrite lookup_insert_ne; [done|]. intros H. by apply Hpq, album_key_inj.
Qed.

Lemma mark_all_cons d (l : list string) b cache :
  mark_all (d :: l) b cache = mark_all l b (insert_album_path d b cache).
Proof. reflexivity. Qed.

Lemma album_contains_photo_mark (l : list string) b cache p :
  album_contains_photo (mark_all l b cache) p
  = if decide (p ∈ l) then Some b else album_contains_photo cache p.
Proof.
  revert cache. induction l as [|d l IH]; intros cache.
  - cbn. case_decide as H; [by apply elem_of_nil in H | done].
  - rewrite mark_all_cons, IH, album_contains_photo_insert_album.
    destruct (decide (p ∈ l)) as [Hl|Hl], (decide (d = p)) as [Hd|Hd],
      (decide (p ∈ d :: l)) as [Hdl|Hdl]; try done; exfalso.
    + apply Hdl. by apply list_elem_of_further.
    + apply Hdl. by apply list_elem_of_further.
    + apply Hdl. subst. apply list_elem_of_here.
    + apply elem_of_cons in Hdl as [Heq|Hin]; [by apply Hd|by apply Hl].
Qed.

Lemma get_photo_type_mark (l : list string) b cache p :
  get_photo_type (mark_all l b cache) p = get_photo_type cache p.
Proof.
  revert cache. induction l as [|d l IH]; intros cache; [done|].
  by rewrite mark_all_cons, IH, get_photo_type_insert_album.
Qed.

End CacheLemmas.

(** ** Loops and fuel *)
Section LoopLemmas.
Context {S R : Type}.
Implicit Types (body : S -> option (S + R)) (s : S) (r : R).

(** More fuel, and a body that answers at least as often, never change a
    result already reached. *)
Lemma loop_mono body body' fuel fuel' s r :
  (forall s x, body s = Some x -> body' s = Some x) ->
  (fuel <= fuel')%nat ->
  loop body fuel s = Some r -> loop body' fuel' s = Some r.
Proof.
  intros Hbody. revert fuel' s.
  induction fuel as [|fuel IH]; intros fuel' s Hle; cbn; [done|].
  destruct fuel' as [|fuel']; [lia|]. cbn.
  destruct (body s) as [[s'|r']|] eqn:Hb; [| |done].
  - rewrite (Hbody _ _ Hb). apply IH. lia.
  - by rewrite (Hbody _ _ Hb).
Qed.

(** After [n] passes that stay in the loop, the loop goes on from the state
    reached. *)
Lemma loop_iterations body n fuel s s' :
  iterations body n s = Some s' ->
  loop body (n + fuel) s = loop body fuel s'.
Proof.
  revert s. induction n as [|n IH]; intros s; cbn.
  - by intros [= ->].
  - destruct (body s) as [[s1|r1]|]; [|done..]. apply IH.
Qed.

Lemma iterations_ext body body' n s s' :
  (forall s s', body s = Some (inl s') -> body' s = Some (inl s')) ->
  iterations body n s = Some s' -> iterations body' n s = Some s'.
Proof.
  intros Hbody. revert s. induction n as [|n IH]; intros s; cbn; [done|].
  destruct (body s) as [[s1|r1]|] eqn:Hb; [|done..].
  rewrite (Hbody _ _ Hb). apply IH.
Qed.

(** An invariant of the passes that stay in the loop holds at the state
    [iterations] reaches. *)
Lemma iterations_invariant (I : S -> Prop) body n s s' :
  (forall s s', I s -> body s = Some (inl s') -> I s') ->
  I s -> iterations body n s = Some s' -> I s'.
Proof.
  intros Hbody. revert s. induction n as [|n IH]; intros s; cbn.
  - by intros ? [= ->].
  - destruct (body s) as [[s1|r1]|] eqn:Hb; [|done..]. eauto.
Qed.

(** The usual rule for a loop with an invariant and a postcondition. *)
Lemma loop_invariant (I : S -> Prop) (Q : R -> Prop) body fuel s r :
  (forall s s', I s -> body s = Some (inl s') -> I s') ->
  (forall s r, I s -> body s = Some (inr r) -> Q r) ->
  I s -> loop body fuel s = Some r -> Q r.
Proof.
  intros Hstep Hexit. revert s.
  induction fuel as [|fuel IH]; intros s; cbn; [done|].
  destruct (body s) as [[s1|r1]|] eqn:Hb; [| |done].
  - eauto.
  - intros ? [= <-]. eauto.
Qed.

End LoopLemmas.

(** ** The ancestor-marking loop *)
Section InsertAlbumPaths.
Implicit Types (cache : scanner_cache) (curr root : string).

(** The loop from [curr]: if the chain of parents meets [root] within [k]
    steps and has not met ["."] by then, the loop leaves after [n <= k]
    passes, having marked the [n] paths below [root]. *)
Lemma insert_album_paths_run root b k : forall curr cache,
  Nat.iter k GoPath.Dir curr = root ->
  (forall j, (j <= k)%nat -> Nat.iter j GoPath.Dir curr ≠ ".") ->
  exists n, (n <= k)%nat
    /\ Nat.iter n GoPath.Dir curr = root
    /\ (root ∉ ancestors n curr)
    /\ forall fuel, (n < fuel)%nat ->
         loop (insert_album_paths_body root b) fuel (curr, cache)
         = Some (mark_all (ancestors n curr) b cache).
Proof.
  induction k as [|k IH]; intros curr cache Hk Hdot.
  - exists 0%nat. cbn in Hk. subst root. repeat split; [lia|apply not_elem_of_nil|].
    intros [|fuel] Hf; [lia|]. cbn.
    rewrite String.eqb_refl. cbn.
    specialize (Hdot 0%nat (le_n _)). cbn in Hdot.
    by apply String.eqb_neq in Hdot as ->.
  - destruct (decide (curr = root)) as [->|Hne].
    + exists 0%nat. repeat split; [lia|apply not_elem_of_nil|].
      intros [|fuel] Hf; [lia|]. cbn.
      rewrite String.eqb_refl. cbn.
      specialize (Hdot 0%nat (Nat.le_0_l _)). cbn in Hdot.
      by apply String.eqb_neq in Hdot as ->.
    + rewrite Nat.iter_succ_r in Hk.
      destruct (IH (GoPath.Dir curr) (insert_album_path curr b cache) Hk)
        as (n & Hn & Hroot & Hnotin & Hloop).
      { intros j Hj. rewrite <- Nat.iter_succ_r. apply Hdot. lia. }
      exists (Datatypes.S n). repeat split.
      * lia.
      * by rewrite Nat.iter_succ_r.
      * cbn. rewrite not_elem_of_cons. split; [congruence|done].
      * intros [|fuel] Hf; [lia|]. cbn -[GoPath.Dir].
        apply String.eqb_neq in Hne as ->. cbn -[GoPath.Dir].
        apply Hloop. lia.
Qed.

(** The slip in the loop condition: once the current path is ["."] the
    condition [curr_path != root_path || curr_path == "."] stays true. *)
Lemma insert_album_paths_dot_diverges root b fuel cache :
  loop (insert_album_paths_body root b) fuel (".", cache) = None.
Proof.
  revert cache. induction fuel as [|fuel IH]; intros cache; [done|].
  cbn -[GoPath.Dir]. rewrite orb_true_r, Dir_dot. apply IH.
Qed.

End InsertAlbumPaths.

(** C10. [insert_album_paths] returns whenever the chain of parent
    directories of the cleaned [end_path] reaches the cleaned [root] in [k]
    steps without being ["."] at any step up to [k]: some [n <= k] passes
    through the loop are made, each one cache insertion, and every amount
    of fuel above [n] gives the cache with exactly these [n] paths marked. *)
Theorem insert_album_paths_terminates
  (end_path root : string) (contains_photo : bool) (cache : scanner_cache)
  (k : nat) :
  Nat.iter k GoPath.Dir (GoPath.Clean end_path) = GoPath.Clean root ->
  (forall j, (j <= k)%nat ->
     Nat.iter j GoPath.Dir (GoPath.Clean end_path) ≠ ".") ->
  exists n, (n <= k)%nat /\
    forall fuel, (n < fuel)%nat ->
      insert_album_paths fuel end_path root contains_photo cache
      = Some (mark_all (ancestors n (GoPath.Clean end_path))
                       contains_photo cache).
Proof.
  intros Hk Hdot.
  destruct (insert_album_paths_run _ contains_photo k _ cache Hk Hdot)
    as (n & Hn & _ & _ & Hloop).
  exists n. split; [done|]. intros fuel Hf. by apply Hloop.
Qed.

Lemma insert_album_paths_terminates_witness :
  exists n, (n <= 3)%nat /\
    forall fuel, (n < fuel)%nat ->
      insert_album_paths fuel "/R/x/y/z" "/R" true ∅
      = Some (mark_all (ancestors n (GoPath.Clean "/R/x/y/z")) true ∅).
Proof.
  apply (insert_album_paths_terminates "/R/x/y/z" "/R" true ∅ 3).
  - reflexivity.
  - intros j Hj.
    destruct j as [|[|[|[|j]]]]; [vm_compute; discriminate .. | lia].
Defined.

(** ** Classification *)

Section Classification.
Context {P : Type} (E : Environment P).
Implicit Types (w : World P) (p path : string).

Lemma emit_emit (evs1 evs2 : list (Event P)) w :
  emit evs2 (emit evs1 w) = emit (evs1 ++ evs2) w.
Proof. unfold emit. cbn. by rewrite app_assoc. Qed.

Lemma sniffs_supported t p m :
  sniffs E t p = Some m ->
  m ∈ SupportedMimetypes
  /\ exists head, os_Open E t p = Head head /\ filetype_Image E head = Some m.
Proof.
  unfold sniffs. destruct (os_Open E t p) as [| |head] eqn:HO; [done..|].
  destruct (filetype_Image E head) as [mime|] eqn:HI; [|done].
  intros Hfind. apply find_some in Hfind as [Hin Heq].
  apply String.eqb_eq in Heq as <-.
  split; [by apply list_elem_of_In | by exists head].
Qed.

Lemma sniffs_unsupported t p head mime :
  os_Open E t p = Head head -> filetype_Image E head = Some mime ->
  mime ∉ SupportedMimetypes -> sniffs E t p = None.
Proof.
  intros HO HI Hnot. unfold sniffs. rewrite HO, HI.
  destruct (find _ _) as [s|] eqn:Hfind; [|done].
  apply find_some in Hfind as [Hin Heq]. apply String.eqb_eq in Heq as <-.
  by apply list_elem_of_In in Hin.
Qed.

Lemma grows_refl Q w : grows E Q w w.
Proof.
  repeat split; [|by left]. exists []. by rewrite app_nil_r.
Qed.

Lemma grows_trans Q w1 w2 w3 :
  grows E Q w1 w2 -> grows E Q w2 w3 -> grows E Q w1 w3.
Proof.
  intros (Hd1 & (e1 & Ht1 & Hq1) & Hc1) (Hd2 & (e2 & Ht2 & Hq2) & Hc2).
  repeat split.
  - congruence.
  - exists (e1 ++ e2). rewrite Ht2, Ht1, <- app_assoc.
    split; [done|]. by apply Forall_app.
  - intros p m H. destruct (Hc2 p m H) as [H2|H2]; [by apply Hc1|by right].
Qed.

Lemma grows_weaken (Q Q' : Event P -> Prop) w w' :
  (forall e, Q e -> Q' e) -> grows E Q w w' -> grows E Q' w w'.
Proof.
  intros HQ (Hd & (evs & Ht & Hq) & Hc). repeat split; [done| |done].
  exists evs. split; [done|]. eapply Forall_impl; eauto.
Qed.

Lemma grows_emit Q evs w : Forall Q evs -> grows E Q w (emit evs w).
Proof. intros HQ. repeat split; [by exists evs | by left]. Qed.

Lemma grows_justified Q w w' :
  grows E Q w w' -> cache_justified E (cache w) -> cache_justified E (cache w').
Proof.
  intros (_ & _ & Hc) Hj p m H. destruct (Hc p m H) as [H'|H']; [eauto|done].
Qed.

Lemma classify_probe_event (e : Event P) : classify_event e -> probe_event e.
Proof. destruct e; cbn; try done. rewrite !elem_of_cons. tauto. Qed.

(** The three ways through [isPathImage]. *)
Lemma isPathImage_hit p w m :
  get_photo_type (cache w) p = Some m -> isPathImage E p w = (true, w).
Proof. intros H. unfold isPathImage. by rewrite H. Qed.

Lemma isPathImage_miss_supported p w m :
  get_photo_type (cache w) p = None -> sniffs E (now w) p = Some m ->
  isPathImage E p w
  = (true, set_cache (insert_photo_type p m (cache w)) (emit [Open_ev p] w)).
Proof.
  intros Hmiss. unfold isPathImage, sniffs. rewrite Hmiss.
  destruct (os_Open E (now w) p) as [| |head]; [done..|].
  destruct (filetype_Image E head) as [mime|]; [|done].
  by intros ->.
Qed.

Lemma isPathImage_miss_rejected p w :
  get_photo_type (cache w) p = None -> sniffs E (now w) p = None ->
  exists logs,
    isPathImage E p w = (false, emit (Open_ev p :: logs) w)
    /\ Forall classify_event logs.
Proof.
  intros Hmiss. unfold isPathImage, sniffs. rewrite Hmiss.
  destruct (os_Open E (now w) p) as [| |head].
  - intros _. eexists. split; [done|]. repeat constructor.
  - intros _. eexists. split; [done|]. repeat constructor.
  - destruct (filetype_Image E head) as [mime|].
    + intros ->. eexists. split; [by rewrite emit_emit|]. repeat constructor.
    + intros _. exists []. split; [done|]. constructor.
Qed.

(** A verdict of [false] leaves the whole cache as it was. *)
Lemma isPathImage_false_cache p w :
  (isPathImage E p w).1 = false -> cache (isPathImage E p w).2 = cache w.
Proof.
  destruct (get_photo_type (cache w) p) as [m|] eqn:Hc.
  - by rewrite (isPathImage_hit _ _ _ Hc).
  - destruct (sniffs E (now w) p) as [m|] eqn:Hs.
    + by rewrite (isPathImage_miss_supported _ _ _ Hc Hs).
    + destruct (isPathImage_miss_rejected _ _ Hc Hs) as (logs & -> & _). done.
Qed.

(** A verdict of [true] leaves a type-cache entry behind. *)
Lemma isPathImage_true_cached p w :
  (isPathImage E p w).1 = true ->
  is_Some (get_photo_type (cache (isPathImage E p w).2) p).
Proof.
  destruct (get_photo_type (cache w) p) as [m|] eqn:Hc.
  - rewrite (isPathImage_hit _ _ _ Hc). cbn. by rewrite Hc.
  - destruct (sniffs E (now w) p) as [m|] eqn:Hs.
    + rewrite (isPathImage_miss_supported _ _ _ Hc Hs). cbn. intros _.
      rewrite get_photo_type_insert_photo. by rewrite decide_True.
    + by destruct (isPathImage_miss_rejected _ _ Hc Hs) as (logs & -> & _).
Qed.

Lemma isPathImage_grows p w : grows E classify_event w (isPathImage E p w).2.
Proof.
  destruct (get_photo_type (cache w) p) as [m|] eqn:Hc.
  - rewrite (isPathImage_hit _ _ _ Hc). apply grows_refl.
  - destruct (sniffs E (now w) p) as [m|] eqn:Hs.
    + rewrite (isPathImage_miss_supported _ _ _ Hc Hs). repeat split.
      * exists [Open_ev p]. split; [done|]. by repeat constructor.
      * cbn. intros q m'. rewrite get_photo_type_insert_photo.
        case_decide as Hq; [|by left]. subst q. intros [= <-]. right. eauto.
    + destruct (isPathImage_miss_rejected _ _ Hc Hs) as (logs & -> & Hl).
      apply grows_emit. by constructor.
Qed.

Lemma isPathImage_album p w q :
  album_contains_photo (cache (isPathImage E p w).2) q
  = album_contains_photo (cache w) q.
Proof.
  destruct (get_photo_type (cache w) p) as [m|] eqn:Hc.
  - by rewrite (isPathImage_hit _ _ _ Hc).
  - destruct (sniffs E (now w) p) as [m|] eqn:Hs.
    + rewrite (isPathImage_miss_supported _ _ _ Hc Hs). cbn.
      apply album_contains_photo_insert_photo.
    + by destruct (isPathImage_miss_rejected _ _ Hc Hs) as (logs & -> & _).
Qed.

End Classification.

(** ** The containment probe *)

Section Probe.
Context {P : Type} (E : Environment P).
Implicit Types (w : World P) (s : probe_state P) (d dirPath rootPath : string).

Lemma listed_dirs_app (evs1 evs2 : list (Event P)) :
  listed_dirs (evs1 ++ evs2) = listed_dirs evs1 ++ listed_dirs evs2.
Proof. apply omap_app. Qed.

Lemma listed_dirs_ReadDir d ok (evs : list (Event P)) :
  listed_dirs (ReadDir_ev d ok :: evs) = d :: listed_dirs evs.
Proof. done. Qed.

Lemma listed_dirs_classify (evs : list (Event P)) :
  Forall classify_event evs -> listed_dirs evs = [].
Proof.
  induction 1 as [|e evs He _ IH]; [done|].
  destruct e; cbn in *; done.
Qed.

Lemma probe_entries_inl dirPath dirContent : forall scanQueue w scanQueue' w',
  probe_entries E dirPath dirContent scanQueue w = inl (scanQueue', w') ->
  cache w' = cache w /\ grows E classify_event w w'.
Proof.
  induction dirContent as [|fileInfo rest IH]; intros q w q' w'; cbn.
  - intros [= <- <-]. split; [done|apply grows_refl].
  - destruct (IsDir fileInfo); [apply IH|].
    pose proof (isPathImage_false_cache E
                  (GoPath.Join [dirPath; Name fileInfo]) w) as Hc.
    pose proof (isPathImage_grows E
                  (GoPath.Join [dirPath; Name fileInfo]) w) as Hg.
    destruct (isPathImage E _ w) as [[] w1]; [done|]. cbn in *.
    intros H. apply IH in H as [H1 H2]. split.
    + rewrite H1. by apply Hc.
    + by eapply grows_trans.
Qed.

Lemma probe_entries_inr dirPath dirContent : forall scanQueue w w1,
  probe_entries E dirPath dirContent scanQueue w = inr w1 ->
  grows E classify_event w w1
  /\ forall q, album_contains_photo (cache w1) q
               = album_contains_photo (cache w) q.
Proof.
  induction dirContent as [|fileInfo rest IH]; intros q w w1; cbn; [done|].
  destruct (IsDir fileInfo); [apply IH|].
  pose proof (isPathImage_album E (GoPath.Join [dirPath; Name fileInfo]) w)
    as Ha.
  pose proof (isPathImage_grows E (GoPath.Join [dirPath; Name fileInfo]) w)
    as Hg.
  destruct (isPathImage E _ w) as [[] w2]; cbn in *.
  - intros [= <-]. done.
  - intros H. apply IH in H as [H1 H2]. split.
    + by eapply grows_trans.
    + intros x. by rewrite H2, Ha.
Qed.

(** A pass that stays in the loop does not look at the fuel. *)
Lemma probe_body_inl_fuel fuel fuel' rootPath s s' :
  probe_body E fuel rootPath s = Some (inl s') ->
  probe_body E fuel' rootPath s = Some (inl s').
Proof.
  unfold probe_body. destruct (p_scanQueue s) as [|d q]; [done|].
  destruct (ioutil_ReadDir E _ d) as [dirContent|]; [|done].
  destruct (probe_entries E d dirContent q _) as [[q' w1]|w1]; [done|].
  by destruct (insert_album_paths fuel _ _ _ _).
Qed.

Lemma probe_inv_init rootPath w : probe_inv rootPath w (probe_init rootPath w).
Proof.
  repeat split; [|by left]. exists []. by rewrite app_nil_r.
Qed.

Lemma probe_body_inv fuel rootPath w s s' :
  probe_inv rootPath w s ->
  probe_body E fuel rootPath s = Some (inl s') -> probe_inv rootPath w s'.
Proof.
  intros (Hc & Hd & (evs & Ht & Hev & Hl) & Hroot). unfold probe_body.
  destruct (p_scanQueue s) as [|d q] eqn:Hq; [done|].
  destruct (ioutil_ReadDir E _ d) as [dirContent|]; [|done].
  destruct (probe_entries E d dirContent q _) as [[q' w1]|w1] eqn:Hpe;
    [|by destruct (insert_album_paths fuel _ _ _ _)].
  intros [= <-]. cbn.
  apply probe_entries_inl in Hpe as (Hc1 & Hd1 & (evs1 & Ht1 & Hev1) & _).
  cbn in *. unfold probe_inv. cbn. repeat split.
  - congruence.
  - congruence.
  - exists (evs ++ ReadDir_ev d true :: evs1). repeat split.
    + rewrite Ht1, Ht, <- !app_assoc. done.
    + apply Forall_app. split; [done|]. constructor; [done|].
      eapply Forall_impl; [exact Hev1|]. apply classify_probe_event.
    + rewrite listed_dirs_app, listed_dirs_ReadDir.
      by rewrite (listed_dirs_classify _ Hev1), Hl.
  - right. apply elem_of_app. destruct Hroot as [[_ Hq']|Hin]; [|by left].
    injection Hq' as -> _. right. apply list_elem_of_here.
Qed.

Lemma probe_iterations_inv fuel rootPath w n s :
  iterations (probe_body E fuel rootPath) n (probe_init rootPath w) = Some s ->
  probe_inv rootPath w s.
Proof.
  apply (iterations_invariant (probe_inv rootPath w)).
  - intros s1 s2. apply probe_body_inv.
  - apply probe_inv_init.
Qed.

(** The probe from a state reached by [n] passes, for any fuel above [n]. *)
Lemma probe_from_iterations fuel0 fuel rootPath w n s :
  album_contains_photo (cache w) rootPath = None ->
  iterations (probe_body E fuel0 rootPath) n (probe_init rootPath w) = Some s ->
  (n < fuel)%nat ->
  directoryContainsPhotos E fuel rootPath w
  = match probe_body E fuel rootPath s with
    | Some (inr r) => Some r
    | Some (inl s') => loop (probe_body E fuel rootPath) (fuel - n - 1) s'
    | None => None
    end.
Proof.
  intros Hmiss Hit Hf. unfold directoryContainsPhotos. rewrite Hmiss.
  replace fuel with (n + Datatypes.S (fuel - n - 1))%nat at 2 by lia.
  erewrite loop_iterations.
  - done.
  - eapply iterations_ext; [|exact Hit].
    intros s1 s2. apply probe_body_inl_fuel.
Qed.

End Probe.

(** C8. A probe whose queue runs empty after [n] passes, none of which
    classified a file as an image or failed to list, returns [false] for
    every fuel above [n]; the directories it dequeued are exactly the ones
    it listed, the probe's root is among them, and each of them is recorded
    as [false] in the containment cache. *)
Theorem probe_exhausted_marks_false {P} (E : Environment P) (fuel0 : nat)
  (rootPath : string) (w : World P) (n : nat) (s : probe_state P) :
  album_contains_photo (cache w) rootPath = None ->
  iterations (probe_body E fuel0 rootPath) n (probe_init rootPath w) = Some s ->
  p_scanQueue s = [] ->
  exists w' evs,
    (forall fuel, (n < fuel)%nat ->
       directoryContainsPhotos E fuel rootPath w = Some (false, w'))
    /\ trace w' = trace w ++ evs
    /\ listed_dirs evs = p_scanned_directories s
    /\ rootPath ∈ p_scanned_directories s
    /\ forall d, d ∈ p_scanned_directories s ->
         album_contains_photo (cache w') d = Some false.
Proof.
  intros Hmiss Hit Hq.
  destruct (probe_iterations_inv E _ _ _ _ _ Hit)
    as (Hc & Hd & (evs & Ht & Hev & Hl) & Hroot).
  exists (mark_scanned (p_scanned_directories s) (p_world s)), evs.
  repeat split.
  - intros fuel Hf. rewrite (probe_from_iterations E fuel0 fuel _ _ n s); try done.
    unfold probe_body. by rewrite Hq.
  - done.
  - done.
  - destruct Hroot as [[_ Hq']|Hin]; [congruence|done].
  - intros d Hin. cbn. rewrite album_contains_photo_mark. by rewrite decide_True.
Qed.

Lemma probe_exhausted_marks_false_witness :
  exists w',
    (forall fuel, (2 < fuel)%nat ->
       directoryContainsPhotos E0 fuel "/E" demo_world = Some (false, w'))
    /\ album_contains_photo (cache w') "/E" = Some false
    /\ album_contains_photo (cache w') "/E/f" = Some false.
Proof.
  edestruct (probe_exhausted_marks_false E0 5 "/E" demo_world 2)
    as (w' & evs & Hrun & _ & _ & _ & Hall).
  - reflexivity.
  - vm_compute. reflexivity.
  - reflexivity.
  - exists w'. split; [exact Hrun|].
    split; apply Hall; apply list_elem_of_In; cbn; tauto.
Defined.

(** C9. A probe that, after [n] passes that stayed in the loop, fails to
    list the directory it dequeues returns [false] for every fuel above
    [n], right after the failed listing, and the cache it leaves is the
    cache it was called with: nothing is recorded, neither for the failing
    directory nor for the directories dequeued before it. *)
Theorem probe_listing_failure_caches_nothing {P} (E : Environment P)
  (fuel0 : nat) (rootPath : string) (w : World P) (n : nat)
  (s : probe_state P) (dirPath : string) (scanQueue : list string) :
  album_contains_photo (cache w) rootPath = None ->
  iterations (probe_body E fuel0 rootPath) n (probe_init rootPath w) = Some s ->
  p_scanQueue s = dirPath :: scanQueue ->
  ioutil_ReadDir E (now (p_world s)) dirPath = None ->
  exists w',
    (forall fuel, (n < fuel)%nat ->
       directoryContainsPhotos E fuel rootPath w = Some (false, w'))
    /\ cache w' = cache w
    /\ trace w'
       = trace (p_world s)
         ++ [ReadDir_ev dirPath false; Log_ev "Could not read directory: %s\n" []].
Proof.
  intros Hmiss Hit Hq Hfail.
  destruct (probe_iterations_inv E _ _ _ _ _ Hit) as (Hc & _).
  exists (emit [ReadDir_ev dirPath false;
                Log_ev "Could not read directory: %s\n" []] (p_world s)).
  repeat split.
  - intros fuel Hf. rewrite (probe_from_iterations E fuel0 fuel _ _ n s); try done.
    unfold probe_body. rewrite Hq, Hfail. reflexivity.
  - done.
Qed.

Lemma probe_listing_failure_caches_nothing_witness :
  exists w',
    (forall fuel, (1 < fuel)%nat ->
       directoryContainsPhotos E0 fuel "/L" demo_world = Some (false, w'))
    /\ cache w' = ∅.
Proof.
  edestruct (probe_listing_failure_caches_nothing E0 5 "/L" demo_world 1)
    as (w' & Hrun & Hcache & _).
  - reflexivity.
  - vm_compute. reflexivity.
  - reflexivity.
  - reflexivity.
  - exists w'. split; [exact Hrun | exact Hcache].
Defined.

(** C1, as stated, fails on the example of the specification: the probe
    rooted at [/R] finds [/R/x/y/z/img.jpg] and returns [true], but [/R]
    itself is not among the entries marked [true]. *)
Lemma probe_does_not_mark_root :
  ~ (forall w',
       directoryContainsPhotos E0 10 "/R" demo_world = Some (true, w') ->
       forall p, p ∈ ["/R"; "/R/x"; "/R/x/y"; "/R/x/y/z"] ->
                 album_contains_photo (cache w') p = Some true).
Proof.
  intros H.
  destruct (directoryContainsPhotos E0 10 "/R" demo_world) as [[b w']|] eqn:Hrun;
    [|by vm_compute in Hrun].
  assert (b = true) as -> by (vm_compute in Hrun; congruence).
  specialize (H w' eq_refl "/R" (list_elem_of_here _ _)).
  vm_compute in Hrun. injection Hrun as <-. vm_compute in H. discriminate H.
Qed.

(** C1, amended. When, after [n] passes that stayed in the loop, the probe
    lists [dirPath] and a file in it classifies as an image, and the chain
    of parents of the cleaned [dirPath] reaches the cleaned [rootPath] in
    [k] steps without being ["."] on the way, the probe returns [true] for
    every fuel above [n + m], where [m <= k] is the number of directories
    on the chain strictly below the root.  Nothing is listed after
    [dirPath].  The entries marked [true] are the [m] directories from
    [dirPath] up to, but not including, the root; every other containment
    entry is as it was before the probe. *)
Theorem probe_found_marks_below_root {P} (E : Environment P) (fuel0 : nat)
  (rootPath : string) (w : World P) (n : nat) (s : probe_state P)
  (dirPath : string) (scanQueue : list string) (dirContent : list FileInfo)
  (w1 : World P) (k : nat) :
  album_contains_photo (cache w) rootPath = None ->
  iterations (probe_body E fuel0 rootPath) n (probe_init rootPath w) = Some s ->
  p_scanQueue s = dirPath :: scanQueue ->
  ioutil_ReadDir E (now (p_world s)) dirPath = Some dirContent ->
  probe_entries E dirPath dirContent scanQueue
    (emit [ReadDir_ev dirPath true] (p_world s)) = inr w1 ->
  Nat.iter k GoPath.Dir (GoPath.Clean dirPath) = GoPath.Clean rootPath ->
  (forall j, (j <= k)%nat ->
     Nat.iter j GoPath.Dir (GoPath.Clean dirPath) ≠ ".") ->
  exists m w',
    (m <= k)%nat
    /\ Nat.iter m GoPath.Dir (GoPath.Clean dirPath) = GoPath.Clean rootPath
    /\ (forall fuel, (n + m < fuel)%nat ->
          directoryContainsPhotos E fuel rootPath w = Some (true, w'))
    /\ (exists evs,
          trace w' = trace (p_world s) ++ ReadDir_ev dirPath true :: evs
          /\ listed_dirs evs = [])
    /\ (GoPath.Clean rootPath ∉ ancestors m (GoPath.Clean dirPath))
    /\ forall p,
         album_contains_photo (cache w') p
         = if decide (p ∈ ancestors m (GoPath.Clean dirPath)) then Some true
           else album_contains_photo (cache w) p.
Proof.
  intros Hmiss Hit Hq Hlist Hfound Hk Hdot.
  destruct (probe_iterations_inv E _ _ _ _ _ Hit) as (Hc & _).
  destruct (insert_album_paths_run _ true k _ (cache w1) Hk Hdot)
    as (m & Hm & Hiter & Hnotin & Hloop).
  apply probe_entries_inr in Hfound as Hinr.
  destruct Hinr as ((_ & (evs & Ht & Hev) & _) & Halbum).
  exists m, (set_cache (mark_all (ancestors m (GoPath.Clean dirPath)) true
                                 (cache w1)) w1).
  repeat split; try done.
  - intros fuel Hf.
    rewrite (probe_from_iterations E fuel0 fuel _ _ n s); [|done|done|lia].
    unfold probe_body. rewrite Hq, Hlist, Hfound.
    unfold insert_album_paths. by rewrite Hloop by lia.
  - exists evs. cbn in *. rewrite Ht, <- app_assoc. split; [done|].
    by apply listed_dirs_classify.
  - intros p. cbn [cache set_cache]. rewrite album_contains_photo_mark.
    destruct (decide _); [done|]. rewrite Halbum. cbn. by rewrite Hc.
Qed.

Lemma probe_found_marks_below_root_witness :
  exists w',
    directoryContainsPhotos E0 10 "/R" demo_world = Some (true, w')
    /\ forall p, album_contains_photo (cache w') p = Some true
                 <-> p ∈ ["/R/x/y/z"; "/R/x/y"; "/R/x"].
Proof.
  edestruct (probe_found_marks_below_root E0 10 "/R" demo_world 3)
    with (k := 3%nat) as (m & w' & Hm & Hiter & Hrun & _ & _ & Hmarks).
  - reflexivity.
  - vm_compute. reflexivity.
  - reflexivity.
  - reflexivity.
  - vm_compute. reflexivity.
  - reflexivity.
  - intros j Hj.
    destruct j as [|[|[|[|j]]]]; [vm_compute; discriminate .. | lia].
  - exists w'. split; [apply Hrun; lia|].
    assert (m = 3%nat) as ->.
    { destruct m as [|[|[|[|m]]]]; [vm_compute in Hiter; discriminate ..|done|lia]. }
    intros p. rewrite Hmarks.
    change (ancestors 3 (GoPath.Clean "/R/x/y/z"))
      with ["/R/x/y/z"; "/R/x/y"; "/R/x"].
    case_decide as Hin; [done|]. split; [|done]. vm_compute. discriminate.
Defined.

(** The case the amended C1 leaves out: rooted at ["."], the probe finds
    the image and then never leaves the marking loop, whatever the fuel. *)
Example probe_dot_never_returns (fuel : nat) :
  directoryContainsPhotos E0 fuel "." demo_world = None.
Proof.
  destruct fuel as [|fuel]; [reflexivity|].
  unfold directoryContainsPhotos.
  change (album_contains_photo (cache demo_world) ".") with (@None bool).
  cbv iota. cbn [loop].
  assert (probe_body E0 (Datatypes.S fuel) "." (probe_init "." demo_world)
          = None) as ->; [|done].
  unfold probe_body. cbn [p_scanQueue p_world probe_init].
  change (ioutil_ReadDir E0 (now demo_world) ".")
    with (Some [file "img.jpg"]). cbv iota.
  destruct (probe_entries E0 "." [file "img.jpg"] []
              (emit [ReadDir_ev "." true] demo_world))
    as [[q w1]|w1] eqn:Hpe; [by vm_compute in Hpe|].
  unfold insert_album_paths.
  change (GoPath.Clean ".") with ".".
  by rewrite insert_album_paths_dot_diverges.
Qed.

(** C6. When the type cache has no entry for [path] and opening the file or
    reading its header fails, [isPathImage] answers [false] and the cache
    is exactly what it was.  A later call, in any world whose cache still
    holds for [path] what this call left, opens the file again, and its
    verdict is what the file sniffs to at that later time. *)
Theorem isPathImage_failure_not_cached {P} (E : Environment P)
  (path : string) (w : World P) :
  get_photo_type (cache w) path = None ->
  os_Open E (now w) path = OpenError \/ os_Open E (now w) path = ReadError ->
  (isPathImage E path w).1 = false
  /\ cache (isPathImage E path w).2 = cache w
  /\ forall w2 : World P,
       get_photo_type (cache w2) path
       = get_photo_type (cache (isPathImage E path w).2) path ->
       (isPathImage E path w2).1
       = (if sniffs E (now w2) path is Some _ then true else false)
       /\ exists evs,
            trace (isPathImage E path w2).2 = trace w2 ++ Open_ev path :: evs.
Proof.
  intros Hmiss Hfail.
  assert (sniffs E (now w) path = None) as Hs.
  { unfold sniffs. by destruct Hfail as [-> | ->]. }
  destruct (isPathImage_miss_rejected E _ _ Hmiss Hs) as (logs & Heq & _).
  rewrite Heq. cbn. split; [done|]. split; [done|].
  intros w2 Hmiss2. rewrite Hmiss in Hmiss2.
  destruct (sniffs E (now w2) path) as [m|] eqn:Hs2.
  - rewrite (isPathImage_miss_supported E _ _ _ Hmiss2 Hs2). cbn.
    split; [done|]. by exists [].
  - destruct (isPathImage_miss_rejected E _ _ Hmiss2 Hs2) as (logs2 & -> & _).
    cbn. split; [done|]. by exists logs2.
Qed.

Lemma isPathImage_failure_not_cached_witness :
  (isPathImage E0 "/E/gone" demo_world).1 = false
  /\ cache (isPathImage E0 "/E/gone" demo_world).2 = cache demo_world
  /\ forall w2 : World demo_Photos,
       get_photo_type (cache w2) "/E/gone"
       = get_photo_type (cache (isPathImage E0 "/E/gone" demo_world).2)
                        "/E/gone" ->
       (isPathImage E0 "/E/gone" w2).1
       = (if sniffs E0 (now w2) "/E/gone" is Some _ then true else false)
       /\ exists evs,
            trace (isPathImage E0 "/E/gone" w2).2
            = trace w2 ++ Open_ev "/E/gone" :: evs.
Proof.
  apply (isPathImage_failure_not_cached E0 "/E/gone" demo_world).
  - reflexivity.
  - left. reflexivity.
Defined.

(** ** The reconciliation pass *)
Section Cleanup.
Context {P : Type} (E : Environment P).
Implicit Types (w : World P) (db : Database P) (r : album_row).

Lemma filter_iff_on {A} (P1 P2 : A -> Prop)
  `{!forall x, Decision (P1 x)} `{!forall x, Decision (P2 x)} (l : list A) :
  (forall x, x ∈ l -> P1 x <-> P2 x) -> filter P1 l = filter P2 l.
Proof.
  induction l as [|x l IH]; intros Hiff; [done|].
  rewrite !filter_cons.
  rewrite IH by (intros y Hy; apply Hiff; by apply list_elem_of_further).
  pose proof (Hiff x (list_elem_of_here _ _)).
  repeat case_decide; tauto.
Qed.

Lemma filter_all {A} (P1 : A -> Prop) `{!forall x, Decision (P1 x)}
  (l : list A) :
  (forall x, P1 x) -> filter P1 l = l.
Proof.
  intros Hall. induction l as [|x l IH]; [done|].
  rewrite filter_cons_True by done. by rewrite IH.
Qed.

Lemma NoDup_fmap_eq {A B} (f : A -> B) (l : list A) x y :
  NoDup (f <$> l) -> x ∈ l -> y ∈ l -> f x = f y -> x = y.
Proof.
  induction l as [|a l IH]; cbn; [by intros _ ?%elem_of_nil|].
  rewrite NoDup_cons. intros [Hnotin Hnd].
  rewrite !elem_of_cons. intros [->|Hx] [->|Hy] Hf; try done.
  - exfalso. apply Hnotin. rewrite Hf. by apply list_elem_of_fmap_2.
  - exfalso. apply Hnotin. rewrite <- Hf. by apply list_elem_of_fmap_2.
  - by apply IH.
Qed.

(** Where album ids identify rows, deleting the selected ids deletes the
    selected rows and nothing else. *)
Lemma delete_selected owner scanned db :
  NoDup (row_album_id <$> album db) ->
  album (delete_albums (select_unscanned_ids owner scanned db) db)
  = filter (fun r => ~ (row_owner_id r = owner /\ row_path r ∉ scanned))
           (album db).
Proof.
  intros Hnd. cbn. apply filter_iff_on. intros r Hr.
  unfold select_unscanned_ids. rewrite list_elem_of_fmap.
  split.
  - intros Hnot Hstale. apply Hnot. exists r. split; [done|].
    apply list_elem_of_filter. done.
  - intros Hnot (r' & Hid & Hin). apply list_elem_of_filter in Hin as [Hstale Hin].
    assert (r = r') as <- by (by eapply NoDup_fmap_eq). done.
Qed.

(** The [rows.Next()] loop tries every row, keeps every id, and leaves
    the store alone, whatever [os.RemoveAll] answers. *)
Lemma remove_cache_dirs_spec rows : forall deleted_albums deleted_ids w,
  exists deleted_albums' w' evs,
    remove_cache_dirs E rows deleted_albums deleted_ids w
    = (deleted_albums', deleted_ids ++ rows, w')
    /\ database w' = database w
    /\ cache w' = cache w
    /\ trace w' = trace w ++ evs
    /\ forall album_id, album_id ∈ rows ->
         exists ok,
           RemoveAll_ev (GoPath.Join ["./image-cache"; Itoa album_id]) ok ∈ evs.
Proof.
  induction rows as [|album_id rest IH]; intros k ids w.
  - exists k, w, []. rewrite !app_nil_r. repeat split.
    by intros ? ?%elem_of_nil.
  - cbn -[GoPath.Join].
    destruct (os_RemoveAll E (now w) _) eqn:Hrm.
    + destruct (IH (Datatypes.S k) (ids ++ [album_id])
                   (emit [RemoveAll_ev
                            (GoPath.Join ["./image-cache"; Itoa album_id])
                            true] w))
        as (k' & w' & evs & -> & Hd & Hc & Ht & Hall).
      exists k', w', (RemoveAll_ev
                        (GoPath.Join ["./image-cache"; Itoa album_id]) true
                      :: evs).
      rewrite <- app_assoc. repeat split; try done.
      * rewrite Ht. cbn -[GoPath.Join]. by rewrite <- app_assoc.
      * intros i [->|Hi]%elem_of_cons.
        -- exists true. apply list_elem_of_here.
        -- destruct (Hall i Hi) as [ok Hok]. exists ok. by apply list_elem_of_further.
    + destruct (IH k (ids ++ [album_id])
                   (emit [RemoveAll_ev
                            (GoPath.Join ["./image-cache"; Itoa album_id])
                            false;
                          Log_ev "ERROR: Could not delete unused cache folder: %s\n%s\n"
                            [GoPath.Join ["./image-cache"; Itoa album_id]]] w))
        as (k' & w' & evs & -> & Hd & Hc & Ht & Hall).
      eexists k', w', (_ :: _ :: evs).
      rewrite <- app_assoc. repeat split; try done.
      * rewrite Ht. cbn -[GoPath.Join]. by rewrite <- app_assoc.
      * intros i [->|Hi]%elem_of_cons.
        -- exists false. apply list_elem_of_here.
        -- destruct (Hall i Hi) as [ok Hok]. exists ok.
           by do 2 apply list_elem_of_further.
Qed.

End Cleanup.

(** C3, as stated, fails when a statement of the pass fails.  With the
    albums [A], [A/B] and [A/C] of owner 1 in the store and [A], [A/B]
    visited, a pass whose SELECT succeeds and whose DELETE fails leaves the
    row of [A/C] in the store: not every row of the owner with an unvisited
    path is deleted. *)
Lemma cleanupCache_failed_delete_keeps_row :
  ~ (forall r,
       r ∈ album db_abc ->
       row_owner_id r = UserID user_R ->
       row_path r ∉ ["A"; "A/B"] ->
       r ∉ album (database (cleanupCache E_delete_fails ["A"; "A/B"] user_R
                              (fresh_world db_abc)))).
Proof.
  intros H. apply (H album_AC).
  - apply list_elem_of_In. cbn. tauto.
  - reflexivity.
  - apply (bool_decide_unpack _). vm_compute. reflexivity.
  - apply list_elem_of_In. vm_compute. tauto.
Qed.

(** C3, amended. Called with a non-empty list of visited paths (a completed
    traversal has visited at least its root), on a store whose statements
    succeed and whose album ids identify rows, the reconciliation pass
    leaves exactly the album rows that belong to another owner or whose
    path was visited, unchanged and in order.  Removal of the derived-cache
    directory is attempted for every deleted row, and the rows are deleted
    whatever [os.RemoveAll] answered. *)
Theorem cleanupCache_deletes_unscanned {P} (E : Environment P)
  (scanned_albums : list string) (user : User) (w : World P) :
  scanned_albums ≠ [] ->
  (forall t, sql_fails E t = false) ->
  NoDup (row_album_id <$> album (database w)) ->
  album (database (cleanupCache E scanned_albums user w))
  = filter (fun r => ~ (row_owner_id r = UserID user
                        /\ row_path r ∉ scanned_albums))
           (album (database w))
  /\ forall r, r ∈ album (database w) ->
       row_owner_id r = UserID user -> row_path r ∉ scanned_albums ->
       (r ∉ album (database (cleanupCache E scanned_albums user w)))
       /\ exists ok,
            RemoveAll_ev
              (GoPath.Join ["./image-cache"; Itoa (row_album_id r)]) ok
            ∈ trace (cleanupCache E scanned_albums user w).
Proof.
  intros Hne Hsql Hnd.
  unfold cleanupCache.
  destruct scanned_albums as [|a V]; [done|].
  change (Nat.eqb (length (a :: V)) 0) with false. cbv iota.
  rewrite Hsql.
  set (rows := select_unscanned_ids (UserID user) (a :: V) (database w)).
  destruct (remove_cache_dirs_spec E rows 0%nat [] (emit [Query_ev true] w))
    as (k' & w' & evs & -> & Hd & Hc & Ht & Hall). cbn [app].
  rewrite Hsql.
  assert (album (database
                   (if Nat.ltb 0 (length rows)
                    then emit [Delete_ev true]
                           (set_database (delete_albums rows (database w')) w')
                    else w'))
          = filter (fun r => ~ (row_owner_id r = UserID user
                                /\ row_path r ∉ a :: V))
                   (album (database w))) as Halbum.
  { destruct rows as [|i rows'] eqn:Hrows.
    - cbn. rewrite Hd. cbn. unfold rows in Hrows.
      rewrite <- (delete_selected _ _ _ Hnd), Hrows. cbn.
      symmetry. apply filter_all. intros r. apply not_elem_of_nil.
    - cbn [length Nat.ltb Nat.leb]. cbn. rewrite Hd. cbn.
      rewrite <- Hrows. unfold rows. by apply (delete_selected (UserID user)). }
  split; [exact Halbum|].
  intros r Hr Howner Hpath. split.
  - change (database (emit ?e ?x)) with (database x).
    rewrite Halbum, list_elem_of_filter. tauto.
  - destruct (Hall (row_album_id r)) as [ok Hok].
    { unfold rows, select_unscanned_ids. apply list_elem_of_fmap_2.
      by apply list_elem_of_filter. }
    exists ok. apply elem_of_app. left.
    assert (RemoveAll_ev
              (GoPath.Join ["./image-cache"; Itoa (row_album_id r)]) ok
            ∈ trace w') as Hin.
    { rewrite Ht. apply elem_of_app. by right. }
    destruct (Nat.ltb 0 (length rows)); [|exact Hin].
    apply elem_of_app. left. exact Hin.
Qed.

Lemma cleanupCache_deletes_unscanned_witness :
  album (database (cleanupCache E0 ["A"; "A/B"] user_R (fresh_world db_abc)))
  = [album_A; album_AB; album_other]
  /\ RemoveAll_ev "image-cache/3" false
     ∈ trace (cleanupCache E0 ["A"; "A/B"] user_R (fresh_world db_abc)).
Proof.
  destruct (cleanupCache_deletes_unscanned E0 ["A"; "A/B"] user_R
              (fresh_world db_abc)) as [Halbum _].
  - discriminate.
  - reflexivity.
  - apply (bool_decide_unpack _). vm_compute. reflexivity.
  - split.
    + rewrite Halbum. vm_compute. reflexivity.
    + apply list_elem_of_In. vm_compute. tauto.
Defined.

(** ** The album lookup *)
Section AlbumLookup.
Context {P : Type} (E : Environment P).

Lemma find_app_Some {A} (f : A -> bool) (l l' : list A) x :
  find f l = Some x -> find f (l ++ l') = Some x.
Proof.
  induction l as [|a l IH]; cbn; [done|]. by destruct (f a).
Qed.

(** What the album transaction reads back does not depend on who scans:
    when the store answers, the id is that of the first stored row with
    the path, whoever owns it. *)
Lemma album_transaction_reads_first_row user albumPath albumParentId
  (w : World P) r :
  (forall t, sql_fails E t = false) ->
  find (fun r => String.eqb (row_path r) albumPath) (album (database w))
  = Some r ->
  exists w', album_transaction E user albumPath albumParentId w
             = inl (row_album_id r, w').
Proof.
  intros Hsql Hfind. unfold album_transaction. rewrite !Hsql.
  assert (select_album_id albumPath
            (insert_ignore_album E (GoPath.Base albumPath) albumParentId
               (UserID user) albumPath (database w))
          = Some (row_album_id r)) as ->; [|by eexists].
  unfold select_album_id, insert_ignore_album.
  destruct (existsb _ _); cbn; [by rewrite Hfind|].
  by rewrite (find_app_Some _ _ _ _ Hfind).
Qed.

End AlbumLookup.

(** C2, on the code.  The owner-1 album of path [/R] exists; user 2, whose
    root is also [/R], scans.  Under either reading of the schema the id
    read back inside the album transaction is 1, the id of the row owned by
    user 1: with [path] UNIQUE the insert is ignored, with
    [(owner_id, path)] UNIQUE the insert adds row 2 and the lookup by path
    alone still returns the first row. *)
Example album_lookup_resolves_other_owner :
  (exists w',
     album_transaction (demo_env unique_path) user_R2 "/R" None
       (fresh_world db_owner1) = inl (1, w')
     /\ ids_and_owners (database w') = [(1, 1)])
  /\ (exists w',
        album_transaction (demo_env unique_owner_path) user_R2 "/R" None
          (fresh_world db_owner1) = inl (1, w')
        /\ ids_and_owners (database w') = [(1, 1); (2, 2)]).
Proof. split; eexists; split; vm_compute; reflexivity. Qed.

(** ** The traversal as a whole *)

Section Traversal.
Context {P : Type} (E : Environment P).
Implicit Types (w : World P) (db : Database P).

Lemma last_commit_app db (evs1 evs2 : list (Event P)) :
  last_commit db (evs1 ++ evs2) = last_commit (last_commit db evs1) evs2.
Proof. apply fold_left_app. Qed.

Lemma last_commit_probe db (evs : list (Event P)) :
  Forall probe_event evs -> last_commit db evs = db.
Proof.
  induction 1 as [|e evs He _ IH]; [done|].
  destruct e; cbn in *; done.
Qed.

Lemma probe_walk_event (e : Event P) : probe_event e -> walk_event E e.
Proof. destruct e; cbn; try done. rewrite !elem_of_cons. tauto. Qed.

(** Listing and classifying keep the walk invariant. *)
Lemma walk_inv_grows db0 w w' :
  walk_inv E db0 w -> grows E probe_event w w' -> walk_inv E db0 w'.
Proof.
  intros (Hev & Hj & Hdb) Hg. pose proof Hg as (Hd & (evs & Ht & Hq) & _).
  repeat split.
  - rewrite Ht. apply Forall_app. split; [done|].
    eapply Forall_impl; [exact Hq|]. apply probe_walk_event.
  - by eapply grows_justified.
  - by rewrite Hd, Ht, last_commit_app, last_commit_probe.
Qed.

(** The marking loop writes containment entries only. *)
Lemma insert_album_paths_photo_type fuel end_path root b (c c' : scanner_cache) p :
  insert_album_paths fuel end_path root b c = Some c' ->
  get_photo_type c' p = get_photo_type c p.
Proof.
  unfold insert_album_paths.
  apply (loop_invariant
           (fun s : string * scanner_cache =>
              get_photo_type s.2 p = get_photo_type c p)
           (fun c' => get_photo_type c' p = get_photo_type c p)).
  - intros [curr c1] [curr' c2] Hc. cbn -[GoPath.Dir].
    destruct (_ || _); [|done]. intros [= <- <-]. cbn.
    by rewrite get_photo_type_insert_album.
  - intros [curr c1] c2 Hc. cbn -[GoPath.Dir].
    destruct (_ || _); [done|]. by intros [= <-].
  - done.
Qed.

Lemma directoryContainsPhotos_grows fuel rootPath w b w' :
  directoryContainsPhotos E fuel rootPath w = Some (b, w') ->
  grows E probe_event w w'.
Proof.
  unfold directoryContainsPhotos.
  destruct (album_contains_photo (cache w) rootPath) as [hit|].
  { intros [= <- <-]. apply grows_refl. }
  apply (loop_invariant
           (fun s : probe_state P => grows E probe_event w (p_world s))
           (fun r : bool * World P => grows E probe_event w r.2)).
  - intros s s' Hg. unfold probe_body.
    destruct (p_scanQueue s) as [|d q]; [done|].
    destruct (ioutil_ReadDir E _ d) as [dirContent|]; [|done].
    destruct (probe_entries E d dirContent q _) as [[q' w1]|w1] eqn:Hpe;
      [|by destruct (insert_album_paths fuel _ _ _ _)].
    intros [= <-]. cbn.
    apply probe_entries_inl in Hpe as [_ Hg1].
    eapply grows_trans; [exact Hg|].
    eapply grows_trans; [apply (grows_emit E probe_event [ReadDir_ev d true])|].
    + by repeat constructor.
    + eapply grows_weaken; [|exact Hg1]. apply classify_probe_event.
  - intros s r Hg. unfold probe_body.
    destruct (p_scanQueue s) as [|d q].
    { intros [= <-]. cbn. eapply grows_trans; [exact Hg|].
      repeat split.
      - exists []. by rewrite app_nil_r.
      - intros p m. cbn. rewrite get_photo_type_mark. by left. }
    destruct (ioutil_ReadDir E _ d) as [dirContent|].
    2:{ intros [= <-]. cbn. eapply grows_trans; [exact Hg|].
        apply grows_emit. by repeat constructor. }
    destruct (probe_entries E d dirContent q _) as [[q' w1]|w1] eqn:Hpe; [done|].
    destruct (insert_album_paths fuel _ _ _ _) as [c|] eqn:Hins; [|done].
    intros [= <-]. cbn.
    apply probe_entries_inr in Hpe as [Hg1 _].
    eapply grows_trans; [exact Hg|].
    eapply grows_trans; [apply (grows_emit E probe_event [ReadDir_ev d true])|].
    + by repeat constructor.
    + eapply grows_trans.
      * eapply grows_weaken; [|exact Hg1]. apply classify_probe_event.
      * repeat split.
        -- exists []. by rewrite app_nil_r.
        -- intros p m. cbn.
           rewrite (insert_album_paths_photo_type _ _ _ _ _ _ _ Hins). by left.
  - apply grows_refl.
Qed.

End Traversal.

Section Walk.
Context {P : Type} (E : Environment P).
Implicit Types (w : World P) (db : Database P).

Lemma walk_inv_emit db0 w (evs : list (Event P)) :
  walk_inv E db0 w -> Forall (walk_event E) evs ->
  last_commit (database w) evs = database w ->
  walk_inv E db0 (emit evs w).
Proof.
  intros (Hev & Hj & Hdb) Hevs Hlast. unfold walk_inv.
  change (trace (emit evs w)) with (trace w ++ evs).
  change (database (emit evs w)) with (database w).
  repeat split.
  - by apply Forall_app.
  - done.
  - by rewrite last_commit_app, <- Hdb, Hlast.
Qed.

Lemma walk_inv_commit db0 w (tx : Database P) :
  walk_inv E db0 w ->
  walk_inv E db0 (emit [Commit_ev tx true] (set_database tx w)).
Proof.
  intros (Hev & Hj & Hdb). unfold walk_inv.
  change (trace (emit [Commit_ev tx true] (set_database tx w)))
    with (trace w ++ [Commit_ev tx true]).
  change (database (emit [Commit_ev tx true] (set_database tx w))) with tx.
  repeat split.
  - apply Forall_app. split; [done|]. by repeat constructor.
  - done.
  - by rewrite last_commit_app.
Qed.

Lemma walk_inv_outcome db0 w : walk_inv E db0 w -> scan_outcome E db0 w.
Proof.
  intros (Hev & Hj & Hdb). split; [done|].
  exists (trace w), []. rewrite app_nil_r. repeat split; [done|].
  right. constructor.
Qed.

Ltac walk_emit :=
  repeat first
    [ apply walk_inv_commit
    | apply walk_inv_emit; [ | by repeat constructor | reflexivity ] ];
  try assumption.

Lemma album_transaction_walk db0 user albumPath albumParentId w :
  walk_inv E db0 w ->
  match album_transaction E user albumPath albumParentId w with
  | inl (_, w') => walk_inv E db0 w'
  | inr w' => scan_outcome E db0 w'
  end.
Proof.
  intros Hw. unfold album_transaction.
  destruct (sql_fails E (now w)).
  { apply walk_inv_outcome. walk_emit. }
  destruct (sql_fails E (now (emit _ w))).
  { apply walk_inv_outcome. walk_emit. }
  destruct (sql_fails E (now (emit [Exec_ev true] _))).
  { apply walk_inv_outcome. walk_emit. }
  destruct (select_album_id albumPath _) as [albumId|].
  2:{ apply walk_inv_outcome. walk_emit. }
  destruct (sql_fails E (now (emit [QueryRow_ev true] _))).
  { apply walk_inv_outcome. walk_emit. }
  walk_emit.
Qed.

Lemma scan_photos_walk db0 albumPath albumId dirContent : forall w,
  walk_inv E db0 w ->
  match scan_photos E albumPath albumId dirContent w with
  | inl w' => walk_inv E db0 w'
  | inr w' => scan_outcome E db0 w'
  end.
Proof.
  induction dirContent as [|item rest IH]; intros w Hw; [done|].
  cbn -[GoPath.Join]. set (photoPath := GoPath.Join [albumPath; Name item]).
  destruct (IsDir item); [by apply IH|].
  pose proof (isPathImage_grows E photoPath w) as Hg.
  pose proof (isPathImage_true_cached E photoPath w) as Hcached.
  destruct (isPathImage E photoPath w) as [is_image w1]. cbn in Hg, Hcached.
  apply (grows_weaken E _ probe_event) in Hg; [|apply classify_probe_event].
  apply (walk_inv_grows E db0 _ _ Hw) in Hg.
  destruct is_image; cbn [negb]; [|by apply IH].
  destruct (sql_fails E (now w1)).
  { apply walk_inv_outcome. walk_emit. }
  change (cache (emit [Begin_ev true] w1)) with (cache w1).
  destruct (Hcached eq_refl) as [content_type Hct]. rewrite Hct.
  destruct (ProcessImage E _ (database w1) photoPath albumId content_type)
    as [tx' ok].
  assert (exists t, sniffs E t photoPath = Some content_type) as Hsniffed.
  { destruct Hg as (_ & Hj & _). by apply Hj. }
  destruct ok.
  - assert (walk_inv E db0
              (emit [ProcessImage_ev photoPath albumId content_type true]
                    (emit [Begin_ev true] w1))) as Hw3.
    { apply walk_inv_emit; [|by repeat constructor|reflexivity]. walk_emit. }
    destruct (sql_fails E _); apply IH; walk_emit.
  - assert (walk_inv E db0 (emit [Begin_ev true] w1)) as (Hev & Hj & Hdb)
        by walk_emit.
    split; [done|].
    exists (trace (emit [Begin_ev true] w1)),
           (rejected_tail photoPath albumId content_type).
    repeat split.
    + cbn -[GoPath.Join]. by rewrite <- !app_assoc.
    + done.
    + left. exists photoPath, albumId, content_type. done.
Qed.

Lemma scan_subalbums_walk db0 fuel albumPath albumId dirContent :
  forall scanQueue w scanQueue' w',
  walk_inv E db0 w ->
  scan_subalbums E fuel albumPath albumId dirContent scanQueue w
  = Some (scanQueue', w') ->
  walk_inv E db0 w'.
Proof.
  induction dirContent as [|item rest IH]; intros q w q' w' Hw.
  - by intros [= <- <-].
  - cbn -[GoPath.Join]. destruct (IsDir item); [|by apply IH].
    destruct (directoryContainsPhotos E fuel _ w) as [[b w1]|] eqn:Hprobe;
      [|done].
    apply directoryContainsPhotos_grows in Hprobe.
    apply (walk_inv_grows E db0 _ _ Hw) in Hprobe.
    destruct b; by apply IH.
Qed.

(** One pass of the traversal loop. *)
Lemma scan_body_walk db0 fuel user (s : scan_state P) :
  walk_inv E db0 (s_world s) ->
  match scan_body E fuel user s with
  | Some (inl s') => walk_inv E db0 (s_world s')
  | Some (inr (Drained _ w')) => walk_inv E db0 w'
  | Some (inr (Returned w')) => scan_outcome E db0 w'
  | None => True
  end.
Proof.
  intros Hw. unfold scan_body.
  destruct (s_scanQueue s) as [|albumInfo scanQueue]; [done|].
  destruct (ioutil_ReadDir E _ _) as [dirContent|].
  2:{ apply walk_inv_outcome. walk_emit. }
  pose proof (album_transaction_walk db0 user (si_path albumInfo)
                (si_parentId albumInfo)
                (emit [ReadDir_ev (si_path albumInfo) true] (s_world s))) as Htx.
  destruct (album_transaction E user _ _ _) as [[albumId w1]|w1].
  2:{ apply Htx. walk_emit. }
  pose proof (scan_photos_walk db0 (si_path albumInfo) albumId dirContent w1)
    as Hphotos.
  destruct (scan_photos E _ albumId dirContent w1) as [w2|w2].
  2:{ apply Hphotos, Htx. walk_emit. }
  destruct (scan_subalbums E fuel _ albumId dirContent scanQueue w2)
    as [[scanQueue' w3]|] eqn:Hsub; [|done].
  cbn. eapply scan_subalbums_walk; [|exact Hsub].
  apply Hphotos, Htx. walk_emit.
Qed.

Lemma remove_cache_dirs_sweep rows : forall deleted_albums deleted_ids w,
  exists evs,
    trace (remove_cache_dirs E rows deleted_albums deleted_ids w).2
    = trace w ++ evs
    /\ Forall sweep_event evs
    /\ cache (remove_cache_dirs E rows deleted_albums deleted_ids w).2
       = cache w.
Proof.
  induction rows as [|album_id rest IH]; intros k ids w.
  - exists []. by rewrite app_nil_r.
  - cbn -[GoPath.Join]. destruct (os_RemoveAll E (now w) _).
    + destruct (IH (Datatypes.S k) (ids ++ [album_id])
                   (emit [RemoveAll_ev
                            (GoPath.Join ["./image-cache"; Itoa album_id])
                            true] w)) as (evs & -> & Hsw & ->).
      eexists (_ :: evs). cbn -[GoPath.Join]. rewrite <- app_assoc.
      repeat split. by constructor.
    + destruct (IH k (ids ++ [album_id])
                   (emit [RemoveAll_ev
                            (GoPath.Join ["./image-cache"; Itoa album_id])
                            false;
                          Log_ev "ERROR: Could not delete unused cache folder: %s\n%s\n"
                            [GoPath.Join ["./image-cache"; Itoa album_id]]] w))
        as (evs & -> & Hsw & ->).
      eexists (_ :: _ :: evs). cbn -[GoPath.Join]. rewrite <- app_assoc.
      repeat split. by repeat constructor.
Qed.

Lemma cleanupCache_sweep scanned_albums user w :
  exists evs,
    trace (cleanupCache E scanned_albums user w) = trace w ++ evs
    /\ Forall sweep_event evs
    /\ cache (cleanupCache E scanned_albums user w) = cache w.
Proof.
  unfold cleanupCache.
  destruct (Nat.eqb _ _).
  { exists []. by rewrite app_nil_r. }
  destruct (sql_fails E (now w)).
  { eexists. repeat split. by repeat constructor. }
  pose proof (remove_cache_dirs_sweep
                (select_unscanned_ids (UserID user) scanned_albums (database w))
                0%nat [] (emit [Query_ev true] w)) as (evs & Ht & Hsw & Hc).
  destruct (remove_cache_dirs E _ _ _ _) as [[k ids] w1]. cbn in Ht, Hc.
  destruct (Nat.ltb _ _); [destruct (sql_fails E (now w1))|].
  - eexists (Query_ev true :: evs ++ _). cbn. rewrite Ht, <- !app_assoc.
    repeat split; [|done]. constructor; [done|]. apply Forall_app.
    split; [done|]. by repeat constructor.
  - eexists (Query_ev true :: evs ++ _). cbn. rewrite Ht, <- !app_assoc.
    repeat split; [|done]. constructor; [done|]. apply Forall_app.
    split; [done|]. by repeat constructor.
  - eexists (Query_ev true :: evs ++ _). cbn. rewrite Ht, <- !app_assoc.
    repeat split; [|done]. constructor; [done|]. apply Forall_app.
    split; [done|]. by repeat constructor.
Qed.

Lemma fresh_world_walk db : walk_inv E db (fresh_world db).
Proof. repeat split; [constructor|]. intros p m. by cbn. Qed.

(** Every world [scan] ends in satisfies [scan_outcome]. *)
Lemma scan_outcome_holds fuel user db wf :
  scan E fuel user db = Some wf -> scan_outcome E db wf.
Proof.
  unfold scan.
  destruct (loop (scan_body E fuel user) fuel (scan_init user db))
    as [exit|] eqn:Hloop; [|done].
  assert (match exit with
          | Drained _ w' => walk_inv E db w'
          | Returned w' => scan_outcome E db w'
          end) as Hexit.
  { revert Hloop.
    apply (loop_invariant
             (fun s : scan_state P => walk_inv E db (s_world s))
             (fun exit : scan_exit P =>
                match exit with
                | Drained _ w' => walk_inv E db w'
                | Returned w' => scan_outcome E db w'
                end)).
    - intros s s' Hw Hb. pose proof (scan_body_walk db fuel user s Hw) as H.
      by rewrite Hb in H.
    - intros s r Hw Hb. pose proof (scan_body_walk db fuel user s Hw) as H.
      by rewrite Hb in H.
    - apply fresh_world_walk. }
  destruct exit as [paths w'|w']; intros [= <-]; [|done].
  destruct Hexit as (Hev & Hj & Hdb).
  destruct (cleanupCache_sweep paths user w') as (evs & Ht & Hsw & Hc).
  split; [cbn; by rewrite Hc|].
  exists (trace w'), (evs ++ [Log_ev "Done scanning" []]). repeat split.
  - cbn. by rewrite Ht, <- app_assoc.
  - done.
  - right. apply Forall_app. split; [done|]. by repeat constructor.
Qed.

(** A traversal that drains its queue has visited at least its root, so
    the reconciliation pass that follows is never called with an empty
    list. *)
Lemma drained_traversal_visited fuel user db scanned_albums w :
  loop (scan_body E fuel user) fuel (scan_init user db)
  = Some (Drained scanned_albums w) ->
  scanned_albums ≠ [].
Proof.
  apply (loop_invariant
           (fun s : scan_state P =>
              s_album_paths_scanned s ≠ [] \/ s_scanQueue s ≠ [])
           (fun exit : scan_exit P =>
              match exit with
              | Drained scanned_albums _ => scanned_albums ≠ []
              | Returned _ => True
              end)).
  - intros s s' _. unfold scan_body.
    destruct (s_scanQueue s) as [|albumInfo scanQueue]; [done|].
    destruct (ioutil_ReadDir E _ _) as [dirContent|]; [|done].
    destruct (album_transaction E user _ _ _) as [[albumId w1]|w1]; [|done].
    destruct (scan_photos E _ albumId dirContent w1) as [w2|w2]; [|done].
    destruct (scan_subalbums E fuel _ albumId dirContent scanQueue w2)
      as [[scanQueue' w3]|]; [|done].
    intros [= <-]. left. cbn. by destruct (s_album_paths_scanned s).
  - intros s exit Hinv. unfold scan_body.
    destruct (s_scanQueue s) as [|albumInfo scanQueue].
    { intros [= <-]. by destruct Hinv. }
    destruct (ioutil_ReadDir E _ _) as [dirContent|]; [|by intros [= <-]].
    destruct (album_transaction E user _ _ _) as [[albumId w1]|w1];
      [|by intros [= <-]].
    destruct (scan_photos E _ albumId dirContent w1) as [w2|w2];
      [|by intros [= <-]].
    by destruct (scan_subalbums E fuel _ albumId dirContent scanQueue w2)
      as [[scanQueue' w3]|].
  - by right.
Qed.

End Walk.

(** ** Fuel is only a bound

    Once a run has produced a result, more fuel produces the same one. *)
Section Fuel.
Context {P : Type} (E : Environment P).
Implicit Types (w : World P).

Lemma insert_album_paths_mono fuel fuel' end_path root b (c c' : scanner_cache) :
  (fuel <= fuel')%nat ->
  insert_album_paths fuel end_path root b c = Some c' ->
  insert_album_paths fuel' end_path root b c = Some c'.
Proof. intros Hle. unfold insert_album_paths. by apply loop_mono. Qed.

Lemma probe_body_mono fuel fuel' rootPath (s : probe_state P) x :
  (fuel <= fuel')%nat ->
  probe_body E fuel rootPath s = Some x ->
  probe_body E fuel' rootPath s = Some x.
Proof.
  intros Hle. unfold probe_body.
  destruct (p_scanQueue s) as [|d q]; [done|].
  destruct (ioutil_ReadDir E _ d) as [dirContent|]; [|done].
  destruct (probe_entries E d dirContent q _) as [[q' w1]|w1]; [done|].
  destruct (insert_album_paths fuel _ _ _ _) as [c|] eqn:Hins; [|done].
  by rewrite (insert_album_paths_mono _ _ _ _ _ _ _ Hle Hins).
Qed.

Lemma directoryContainsPhotos_mono fuel fuel' rootPath w r :
  (fuel <= fuel')%nat ->
  directoryContainsPhotos E fuel rootPath w = Some r ->
  directoryContainsPhotos E fuel' rootPath w = Some r.
Proof.
  intros Hle. unfold directoryContainsPhotos.
  destruct (album_contains_photo (cache w) rootPath); [done|].
  apply loop_mono; [|done]. intros s x. by apply probe_body_mono.
Qed.

Lemma scan_subalbums_mono fuel fuel' albumPath albumId dirContent :
  (fuel <= fuel')%nat ->
  forall scanQueue w r,
    scan_subalbums E fuel albumPath albumId dirContent scanQueue w = Some r ->
    scan_subalbums E fuel' albumPath albumId dirContent scanQueue w = Some r.
Proof.
  intros Hle. induction dirContent as [|item rest IH]; intros q w r; [done|].
  cbn -[GoPath.Join]. destruct (IsDir item); [|apply IH].
  destruct (directoryContainsPhotos E fuel _ w) as [[b w1]|] eqn:Hprobe;
    [|done].
  rewrite (directoryContainsPhotos_mono _ _ _ _ _ Hle Hprobe).
  destruct b; apply IH.
Qed.

Lemma scan_body_mono fuel fuel' user (s : scan_state P) x :
  (fuel <= fuel')%nat ->
  scan_body E fuel user s = Some x -> scan_body E fuel' user s = Some x.
Proof.
  intros Hle. unfold scan_body.
  destruct (s_scanQueue s) as [|albumInfo scanQueue]; [done|].
  destruct (ioutil_ReadDir E _ _) as [dirContent|]; [|done].
  destruct (album_transaction E user _ _ _) as [[albumId w1]|w1]; [|done].
  destruct (scan_photos E _ albumId dirContent w1) as [w2|w2]; [|done].
  destruct (scan_subalbums E fuel _ albumId dirContent scanQueue w2)
    as [r|] eqn:Hsub; [|done].
  by rewrite (scan_subalbums_mono _ _ _ _ _ Hle _ _ _ Hsub).
Qed.

Lemma scan_mono fuel fuel' user (db : Database P) wf :
  (fuel <= fuel')%nat ->
  scan E fuel user db = Some wf -> scan E fuel' user db = Some wf.
Proof.
  intros Hle. unfold scan.
  destruct (loop (scan_body E fuel user) fuel (scan_init user db))
    as [exit|] eqn:Hloop; [|done].
  erewrite (loop_mono (scan_body E fuel user) (scan_body E fuel' user));
    [done| |exact Hle|exact Hloop].
  intros s x. by apply scan_body_mono.
Qed.

End Fuel.

Section Outcome.
Context {P : Type} (E : Environment P).
Implicit Types (w : World P) (e : Event P).

Lemma walk_not_sweep e : walk_event E e -> ~ sweep_event e.
Proof.
  destruct e as [| | | | | | | | | | |format args]; cbn; try tauto.
  revert format. apply Forall_forall.
  apply (bool_decide_unpack _). vm_compute. reflexivity.
Qed.

Lemma rejected_tail_not_sweep photoPath albumId content_type :
  Forall (fun e : Event P => ~ sweep_event e)
         (rejected_tail photoPath albumId content_type).
Proof.
  repeat constructor; cbn; try tauto.
  apply (bool_decide_unpack _). vm_compute. reflexivity.
Qed.

(** Every event of a finished run is one of the three kinds. *)
Lemma scan_outcome_event db0 w e :
  scan_outcome E db0 w -> e ∈ trace w ->
  walk_event E e
  \/ (exists photoPath albumId content_type,
        e ∈ rejected_tail photoPath albumId content_type
        /\ exists t, sniffs E t photoPath = Some content_type)
  \/ sweep_event e.
Proof.
  intros (_ & good & tail & -> & Hgood & Htail) [Hin|Hin]%elem_of_app.
  - left. by eapply Forall_forall in Hgood.
  - destruct Htail as [(p & i & ct & -> & Hs & _)|Hsw].
    + right. left. by exists p, i, ct.
    + right. right. by eapply Forall_forall in Hsw.
Qed.

End Outcome.

(** C5. A verdict of [true] from [isPathImage] leaves a type-cache entry
    for the path behind, and no run of [scan], with whatever environment,
    fuel, user and store, ever prints the message of the branch taken when
    that entry is missing. *)
Theorem cache_miss_branch_unreachable {P} (E : Environment P)
  (path : string) (w : World P) (fuel : nat) (user : User) (db : Database P)
  (wf : World P) :
  ((isPathImage E path w).1 = true ->
   is_Some (get_photo_type (cache (isPathImage E path w).2) path))
  /\ (scan E fuel user db = Some wf ->
      forall args, Log_ev "Content type not found from cache" args ∉ trace wf).
Proof.
  split; [apply isPathImage_true_cached|].
  intros Hscan args Hin. apply scan_outcome_holds in Hscan.
  destruct (scan_outcome_event E _ _ _ Hscan Hin)
    as [Hw|[(p & i & ct & Hr & _)|Hs]].
  - revert Hw. cbn. apply (bool_decide_unpack _). vm_compute. reflexivity.
  - repeat (apply elem_of_cons in Hr as [Hr|Hr]; [discriminate Hr|]).
    by apply elem_of_nil in Hr.
  - revert Hs. cbn. apply (bool_decide_unpack _). vm_compute. reflexivity.
Qed.

Lemma cache_miss_branch_unreachable_witness :
  is_Some (get_photo_type
             (cache (isPathImage E0 "/R/x/y/z/img.jpg" demo_world).2)
             "/R/x/y/z/img.jpg")
  /\ exists wf,
       scan E0 10 user_B empty_db = Some wf
       /\ forall args,
            Log_ev "Content type not found from cache" args ∉ trace wf.
Proof.
  split.
  - apply (proj1 (cache_miss_branch_unreachable E0 "/R/x/y/z/img.jpg"
                    demo_world 10 user_B empty_db demo_world)).
    reflexivity.
  - assert (exists wf, scan E0 10 user_B empty_db = Some wf) as [wf Hscan]
      by (vm_compute; eauto).
    exists wf. split; [exact Hscan|].
    apply (proj2 (cache_miss_branch_unreachable E0 "/R/x/y/z/img.jpg"
                    demo_world 10 user_B empty_db wf)).
    exact Hscan.
Defined.

(** C7. Take a file that, whenever its header can be read and is
    recognised, sniffs to a content type outside [SupportedMimetypes].
    In every world whose type cache holds sniffed entries only, as every
    world of a scan does, [isPathImage] answers [false] for it and leaves
    the cache as it was, and when the header is read and recognised it
    logs the rejection with the type.  In every run of [scan] the type
    cache never gets an entry for the file and the file is never handed to
    [ProcessImage]. *)
Theorem unsupported_type_rejected {P} (E : Environment P) (path : string) :
  (forall t head mime,
     os_Open E t path = Head head -> filetype_Image E head = Some mime ->
     mime ∉ SupportedMimetypes) ->
  (forall w : World P,
     cache_justified E (cache w) ->
     (isPathImage E path w).1 = false
     /\ cache (isPathImage E path w).2 = cache w
     /\ forall head mime,
          os_Open E (now w) path = Head head ->
          filetype_Image E head = Some mime ->
          trace (isPathImage E path w).2
          = trace w
            ++ [Open_ev path;
                Log_ev "Unsupported image %s of type %s\n" [path; mime]])
  /\ (forall fuel user db wf,
        scan E fuel user db = Some wf ->
        get_photo_type (cache wf) path = None
        /\ forall albumId content_type ok,
             ProcessImage_ev path albumId content_type ok ∉ trace wf).
Proof.
  intros Hnever.
  assert (forall t, sniffs E t path = None) as Hsniff.
  { intros t. destruct (sniffs E t path) as [m|] eqn:Hs; [|done].
    apply sniffs_supported in Hs as (Hin & head & HO & HI).
    by destruct (Hnever t head m HO HI). }
  assert (forall c, cache_justified E c -> get_photo_type c path = None)
    as Hnone.
  { intros c Hj. destruct (get_photo_type c path) as [m|] eqn:Hc; [|done].
    destruct (Hj _ _ Hc) as [t Ht]. by rewrite Hsniff in Ht. }
  split.
  - intros w Hj. pose proof (Hnone _ Hj) as Hmiss.
    destruct (isPathImage_miss_rejected E _ _ Hmiss (Hsniff (now w)))
      as (logs & Heq & _).
    split; [by rewrite Heq|]. split; [by rewrite Heq|].
    intros head mime HO HI.
    pose proof (Hsniff (now w)) as Hs. unfold sniffs in Hs.
    rewrite HO, HI in Hs.
    unfold isPathImage. rewrite Hmiss, HO, HI, Hs. cbn.
    by rewrite <- app_assoc.
  - intros fuel user db wf Hscan. apply scan_outcome_holds in Hscan. split.
    + apply Hnone. by destruct Hscan.
    + intros albumId content_type ok Hin.
      destruct (scan_outcome_event E _ _ _ Hscan Hin)
        as [Hw|[(p & i & ct & Hr & (t & Ht))|Hs]].
      * destruct Hw as (_ & t & Ht). by rewrite Hsniff in Ht.
      * apply elem_of_cons in Hr as [Hr|Hr].
        -- injection Hr as -> _ ->. by rewrite Hsniff in Ht.
        -- repeat (apply elem_of_cons in Hr as [Hr|Hr]; [discriminate Hr|]).
           by apply elem_of_nil in Hr.
      * done.
Qed.

Lemma unsupported_type_rejected_witness :
  ((isPathImage E0 "/E/doc.pdf" demo_world).1 = false
   /\ trace (isPathImage E0 "/E/doc.pdf" demo_world).2
      = [Open_ev "/E/doc.pdf";
         Log_ev "Unsupported image %s of type %s\n"
                ["/E/doc.pdf"; "application/pdf"]])
  /\ exists wf,
       scan E0 10 user_E empty_db = Some wf
       /\ get_photo_type (cache wf) "/E/doc.pdf" = None
       /\ forall albumId content_type ok,
            ProcessImage_ev "/E/doc.pdf" albumId content_type ok ∉ trace wf.
Proof.
  destruct (unsupported_type_rejected E0 "/E/doc.pdf") as [Hlocal Hscan].
  - intros t head mime HO HI.
    vm_compute in HO. injection HO as <-.
    vm_compute in HI. injection HI as <-.
    apply (bool_decide_unpack _). vm_compute. reflexivity.
  - split.
    + destruct (Hlocal demo_world) as (Hfalse & _ & Hlog).
      * intros p m Hc. vm_compute in Hc. discriminate Hc.
      * split; [exact Hfalse|].
        apply (Hlog [x25; x50; x44; x46] "application/pdf"); reflexivity.
    + assert (exists wf, scan E0 10 user_E empty_db = Some wf) as [wf Hrun]
        by (vm_compute; eauto).
      exists wf. split; [exact Hrun|]. by apply (Hscan 10%nat user_E empty_db).
Defined.

(** ** A rejected photo ends the run *)

(** In a run of [scan] whose trace has a failed call of [ProcessImage],
    that call is followed by the error message and the rollback of the
    file's transaction and by nothing else: no directory is listed after
    it.  The store the run ends with is the one left by the last commit
    before the call, no event of the reconciliation pass occurs anywhere
    in the run, and more fuel does not make the run go on. *)
Lemma failed_ProcessImage_outcome {P} (E : Environment P) (fuel : nat)
  (user : User) (db : Database P) (wf : World P) (pre post : list (Event P))
  (photoPath : string) (albumId : Z) (content_type : string) :
  scan E fuel user db = Some wf ->
  trace wf = pre ++ ProcessImage_ev photoPath albumId content_type false :: post ->
  post = [Log_ev "ERROR: processing image %s: %s" [photoPath]; Rollback_ev]
  /\ listed_dirs post = []
  /\ database wf = last_commit db pre
  /\ Forall (fun e => ~ sweep_event e) (trace wf)
  /\ forall fuel', (fuel <= fuel')%nat -> scan E fuel' user db = Some wf.
Proof.
  intros Hscan Htrace.
  assert (forall fuel', (fuel <= fuel')%nat -> scan E fuel' user db = Some wf)
    as Hmono by (intros fuel' Hle; by eapply scan_mono).
  apply scan_outcome_holds in Hscan.
  destruct Hscan as (_ & good & tail & Hsplit & Hgood & Htail).
  assert (ProcessImage_ev photoPath albumId content_type false ∉ good) as Hnot.
  { intros Hin. eapply Forall_forall in Hgood; [|exact Hin].
    by destruct Hgood as [? _]. }
  rewrite Hsplit in Htrace.
  destruct Htail as [(p & i & ct & -> & _ & Hdb)|Hsw].
  - assert (pre = good /\ post = [Log_ev "ERROR: processing image %s: %s"
                                         [photoPath]; Rollback_ev])
      as [-> ->].
    { unfold rejected_tail in Htrace.
      apply app_eq_app in Htrace as [l [[Hg Ht]|[Hp Ht]]].
      - destruct l as [|e l]; cbn in Ht.
        + rewrite app_nil_r in Hg. by simplify_eq.
        + simplify_eq. exfalso. apply Hnot.
          apply elem_of_app. right. apply list_elem_of_here.
      - destruct l as [|e1 [|e2 [|e3 [|e4 l]]]]; cbn in Ht;
          try discriminate Ht.
        rewrite app_nil_r in Hp. by simplify_eq. }
    repeat split; [done| |done].
    rewrite Hsplit. apply Forall_app. split.
    + eapply Forall_impl; [exact Hgood|]. apply walk_not_sweep.
    + apply rejected_tail_not_sweep.
  - exfalso.
    assert (ProcessImage_ev photoPath albumId content_type false
            ∈ good ++ tail) as [Hin|Hin]%elem_of_app.
    { rewrite Htrace. apply elem_of_app. right. apply list_elem_of_here. }
    + by apply Hnot.
    + eapply Forall_forall in Hsw; [|exact Hin]. exact Hsw.
Qed.

(** The photo loop over a listing is the loop over its first part, then,
    unless [scan] returned, the loop over the rest. *)
Lemma scan_photos_app {P} (E : Environment P) (albumPath : string)
  (albumId : Z) (l1 l2 : list FileInfo) : forall w : World P,
  scan_photos E albumPath albumId (l1 ++ l2) w
  = match scan_photos E albumPath albumId l1 w with
    | inl w' => scan_photos E albumPath albumId l2 w'
    | inr w' => inr w'
    end.
Proof.
  induction l1 as [|item rest IH]; intros w; [done|].
  cbn -[GoPath.Join]. destruct (IsDir item); [apply IH|].
  destruct (isPathImage E _ w) as [[] w1]; cbn -[GoPath.Join]; [|apply IH].
  destruct (sql_fails E (now w1)); [done|].
  destruct (get_photo_type _ _) as [content_type|]; [|done].
  destruct (ProcessImage E _ _ _ _ _) as [tx' []]; [|done].
  destruct (sql_fails E _); apply IH.
Qed.

(** A pass of the traversal that returns ends the run, for every fuel that
    covers the passes before it and the probes they made. *)
Lemma scan_returns_from_pass {P} (E : Environment P) (fuel0 fuel : nat)
  (user : User) (db : Database P) (n : nat) (s : scan_state P)
  (wf : World P) :
  iterations (scan_body E fuel0 user) n (scan_init user db) = Some s ->
  (forall fuel', scan_body E fuel' user s = Some (inr (Returned wf))) ->
  (n < fuel)%nat -> (fuel0 <= fuel)%nat ->
  scan E fuel user db = Some wf.
Proof.
  intros Hit Hbody Hn Hf0. unfold scan.
  replace fuel with (n + Datatypes.S (fuel - n - 1))%nat at 2 by lia.
  erewrite loop_iterations.
  - cbn. by rewrite Hbody.
  - eapply iterations_ext; [|exact Hit].
    intros s1 s2. by apply scan_body_mono.
Qed.

(** C4. Take a run of [scan] that, after [n] passes of the traversal that
    stayed in the loop, lists a directory and commits its album, runs the
    photo loop through the entries before some file, classifies that file
    as an image and begins its transaction, and let [ProcessImage] answer
    with an error for the file.  Then [scan] returns, for every fuel that
    covers the [n] passes and their probes, and always in the same world:
    its trace ends with the failed call, the error message and the
    rollback of the file's transaction, so that nothing is dequeued or
    listed after the call; its store is the one the file's transaction
    started from, which is what the commits before it left; and no event
    of the reconciliation pass occurs anywhere in the run. *)
Theorem ProcessImage_error_aborts_scan {P} (E : Environment P) (fuel0 : nat)
  (user : User) (db : Database P) (n : nat) (s : scan_state P)
  (albumPath : string) (albumParentId : option Z) (scanQueue : list scanInfo)
  (before : list FileInfo) (name : string) (after : list FileInfo)
  (albumId : Z) (w1 w2 w3 : World P) (content_type : string) :
  iterations (scan_body E fuel0 user) n (scan_init user db) = Some s ->
  s_scanQueue s
  = {| si_path := albumPath; si_parentId := albumParentId |} :: scanQueue ->
  ioutil_ReadDir E (now (s_world s)) albumPath
  = Some (before ++ {| Name := name; IsDir := false |} :: after) ->
  album_transaction E user albumPath albumParentId
    (emit [ReadDir_ev albumPath true] (s_world s)) = inl (albumId, w1) ->
  scan_photos E albumPath albumId before w1 = inl w2 ->
  isPathImage E (GoPath.Join [albumPath; name]) w2 = (true, w3) ->
  sql_fails E (now w3) = false ->
  get_photo_type (cache w3) (GoPath.Join [albumPath; name])
  = Some content_type ->
  (ProcessImage E (Datatypes.S (now w3)) (database w3)
     (GoPath.Join [albumPath; name]) albumId content_type).2 = false ->
  exists wf,
    (forall fuel, (n < fuel)%nat -> (fuel0 <= fuel)%nat ->
       scan E fuel user db = Some wf)
    /\ trace wf
       = trace w3
         ++ [Begin_ev true;
             ProcessImage_ev (GoPath.Join [albumPath; name]) albumId
               content_type false;
             Log_ev "ERROR: processing image %s: %s"
                    [GoPath.Join [albumPath; name]];
             Rollback_ev]
    /\ database wf = database w3
    /\ database wf = last_commit db (trace w3)
    /\ Forall (fun e => ~ sweep_event e) (trace wf).
Proof.
  intros Hit Hq Hread Htx Hbefore Himg Hbegin Htype Hfail.
  set (photoPath := GoPath.Join [albumPath; name]) in *.
  set (wf := emit [Log_ev "ERROR: processing image %s: %s" [photoPath];
                   Rollback_ev]
               (emit [ProcessImage_ev photoPath albumId content_type false]
                  (emit [Begin_ev true] w3))).
  assert (forall fuel', scan_body E fuel' user s = Some (inr (Returned wf)))
    as Hbody.
  { intros fuel'. unfold scan_body. rewrite Hq. cbn [si_path si_parentId].
    rewrite Hread, Htx, scan_photos_app, Hbefore.
    cbn -[GoPath.Join]. fold photoPath. rewrite Himg. cbn -[GoPath.Join].
    rewrite Hbegin. cbn [cache emit]. rewrite Htype.
    replace (length (trace w3 ++ [Begin_ev true])) with (Datatypes.S (now w3))
      by (rewrite length_app; cbn; unfold now; lia).
    destruct (ProcessImage E _ _ _ _ _) as [tx' ok]. cbn in Hfail.
    by rewrite Hfail. }
  assert (forall fuel, (n < fuel)%nat -> (fuel0 <= fuel)%nat ->
            scan E fuel user db = Some wf) as Hrun.
  { intros fuel Hn Hf0. by eapply scan_returns_from_pass. }
  assert (trace wf
          = (trace w3 ++ [Begin_ev true])
            ++ ProcessImage_ev photoPath albumId content_type false
               :: [Log_ev "ERROR: processing image %s: %s" [photoPath];
                   Rollback_ev]) as Htrace.
  { cbn. by rewrite <- !app_assoc. }
  assert (scan E (Datatypes.S (n + fuel0)) user db = Some wf) as Hscan
    by (apply Hrun; lia).
  destruct (failed_ProcessImage_outcome E _ user db wf _ _ _ _ _ Hscan Htrace)
    as (_ & _ & Hdb & Hsweep & _).
  exists wf. split; [exact Hrun|]. split.
  { rewrite Htrace. by rewrite <- app_assoc. }
  split; [done|]. split; [|exact Hsweep].
  rewrite Hdb. unfold last_commit. by rewrite fold_left_app.
Qed.

Lemma ProcessImage_error_aborts_scan_witness :
  exists wf,
    (forall fuel, (0 < fuel)%nat -> (5 <= fuel)%nat ->
       scan E0 fuel user_B empty_db = Some wf)
    /\ drop 12 (trace wf)
       = [ProcessImage_ev "/B/bad.jpg" 1 "image/jpeg" false;
          Log_ev "ERROR: processing image %s: %s" ["/B/bad.jpg"];
          Rollback_ev]
    /\ photos (database wf) = [("/B/ok.jpg", 1, "image/jpeg")]
    /\ Forall (fun e => ~ sweep_event e) (trace wf).
Proof.
  edestruct (ProcessImage_error_aborts_scan E0 5 user_B empty_db 0
               (scan_init user_B empty_db) "/B" None [] [file "ok.jpg"]
               "bad.jpg" [dir "sub"] 1)
    as (wf & Hrun & Htrace & Hdb & _ & Hsweep).
  - reflexivity.
  - reflexivity.
  - reflexivity.
  - vm_compute. reflexivity.
  - vm_compute. reflexivity.
  - vm_compute. reflexivity.
  - reflexivity.
  - reflexivity.
  - reflexivity.
  - exists wf. split; [exact Hrun|]. split; [|split; [|exact Hsweep]].
    + rewrite Htrace. vm_compute. reflexivity.
    + rewrite Hdb. vm_compute. reflexivity.
Defined.

(** * Further properties of the scanner *)

(** ** The cache as a store *)

(** X1. Reading a content type back: after [insert_photo_type] the path
    reads as the type written, last write winning, every other path reads
    as before, and no containment entry changes, not even the one of the
    same path. *)
Theorem photo_type_round_trip (cache : scanner_cache)
  (path other content_type : string) :
  get_photo_type (insert_photo_type path content_type cache) other
  = (if decide (path = other) then Some content_type
     else get_photo_type cache other)
  /\ album_contains_photo (insert_photo_type path content_type cache) other
     = album_contains_photo cache other.
Proof.
  split.
  - apply get_photo_type_insert_photo.
  - apply album_contains_photo_insert_photo.
Qed.

(** X2. Reading a containment verdict back: after [insert_album_path] the
    path reads as the verdict written, every other path reads as before,
    and no content type changes: a verdict is never read as a type. *)
Theorem album_path_round_trip (cache : scanner_cache)
  (path other : string) (contains_photo : bool) :
  album_contains_photo (insert_album_path path contains_photo cache) other
  = (if decide (path = other) then Some contains_photo
     else album_contains_photo cache other)
  /\ get_photo_type (insert_album_path path contains_photo cache) other
     = get_photo_type cache other.
Proof.
  split.
  - apply album_contains_photo_insert_album.
  - apply get_photo_type_insert_album.
Qed.

(** ** When the ancestor-marking loop does not return *)

Lemma insert_album_paths_loop_forever root b fuel : forall curr cache,
  (forall j, Nat.iter j GoPath.Dir curr ≠ root
             \/ Nat.iter j GoPath.Dir curr = ".") ->
  loop (insert_album_paths_body root b) fuel (curr, cache) = None.
Proof.
  induction fuel as [|fuel IH]; intros curr cache Hchain; [done|].
  cbn -[GoPath.Dir].
  assert (negb (String.eqb curr root) || String.eqb curr "." = true) as ->.
  { destruct (Hchain 0%nat) as [Hne|Heq]; cbn in *.
    - apply String.eqb_neq in Hne as ->. done.
    - subst curr. apply orb_true_r. }
  apply IH. intros j. rewrite <- Nat.iter_succ_r. apply Hchain.
Qed.

Lemma iter_Dir_dot j : Nat.iter j GoPath.Dir "." = ".".
Proof.
  induction j as [|j IH]; [done|]. by rewrite Nat.iter_succ_r, Dir_dot.
Qed.

(** X3. The converse of C10: when every directory on the chain of parents
    of the cleaned [end_path] either differs from the cleaned [root] or is
    ["."], the loop never leaves, whatever the fuel. *)
Theorem insert_album_paths_never_returns (end_path root : string)
  (contains_photo : bool) (cache : scanner_cache) :
  (forall j, Nat.iter j GoPath.Dir (GoPath.Clean end_path) ≠ GoPath.Clean root
             \/ Nat.iter j GoPath.Dir (GoPath.Clean end_path) = ".") ->
  forall fuel,
    insert_album_paths fuel end_path root contains_photo cache = None.
Proof.
  intros Hchain fuel. unfold insert_album_paths.
  by apply insert_album_paths_loop_forever.
Qed.

Lemma insert_album_paths_never_returns_witness :
  insert_album_paths 1000 "x/y" "." true ∅ = None.
Proof.
  apply (insert_album_paths_never_returns "x/y" "." true ∅).
  intros [|[|j]].
  - left. vm_compute. discriminate.
  - left. vm_compute. discriminate.
  - right. rewrite !Nat.iter_succ_r.
    change (GoPath.Dir (GoPath.Dir (GoPath.Clean "x/y"))) with ".".
    apply iter_Dir_dot.
Defined.

(** ** Classification *)
Section MoreClassification.
Context {P : Type} (E : Environment P).
Implicit Types (w : World P).

Lemma find_eqb_elem (mime : string) (l : list string) :
  mime ∈ l -> find (fun s => String.eqb s mime) l = Some mime.
Proof.
  induction l as [|s l IH]; [by intros ?%elem_of_nil|].
  cbn. destruct (String.eqb s mime) eqn:Heq.
  - apply String.eqb_eq in Heq as ->. done.
  - intros [->|Hin]%elem_of_cons; [by rewrite String.eqb_refl in Heq|auto].
Qed.

(** Classification never drops or rewrites a type-cache entry. *)
Lemma isPathImage_keeps_types path w q m :
  get_photo_type (cache w) q = Some m ->
  get_photo_type (cache (isPathImage E path w).2) q = Some m.
Proof.
  intros Hq.
  destruct (get_photo_type (cache w) path) as [m'|] eqn:Hc.
  - by rewrite (isPathImage_hit _ _ _ _ Hc).
  - destruct (sniffs E (now w) path) as [m'|] eqn:Hs.
    + rewrite (isPathImage_miss_supported _ _ _ _ Hc Hs). cbn.
      rewrite get_photo_type_insert_photo.
      destruct (decide (path = q)) as [->|]; [congruence|done].
    + by destruct (isPathImage_miss_rejected _ _ _ Hc Hs) as (logs & -> & _).
Qed.

End MoreClassification.

(** X4. Acceptance: on a cache miss, a file whose header is read and sniffs
    to one of [SupportedMimetypes] is classified as an image, exactly that
    type is cached for it, and the file was opened once. *)
Theorem isPathImage_accepts_supported {P} (E : Environment P) (path : string)
  (w : World P) (head : list byte) (mime : string) :
  get_photo_type (cache w) path = None ->
  os_Open E (now w) path = Head head ->
  filetype_Image E head = Some mime ->
  mime ∈ SupportedMimetypes ->
  isPathImage E path w
  = (true,
     set_cache (insert_photo_type path mime (cache w)) (emit [Open_ev path] w)).
Proof.
  intros Hmiss HO HI Hin. apply isPathImage_miss_supported; [done|].
  unfold sniffs. rewrite HO, HI. by apply find_eqb_elem.
Qed.

Lemma isPathImage_accepts_supported_witness :
  isPathImage E0 "/B/ok.jpg" demo_world
  = (true,
     set_cache (insert_photo_type "/B/ok.jpg" "image/jpeg" (cache demo_world))
               (emit [Open_ev "/B/ok.jpg"] demo_world)).
Proof.
  apply (isPathImage_accepts_supported E0 "/B/ok.jpg" demo_world
           [xff; xd8; xff] "image/jpeg").
  - reflexivity.
  - reflexivity.
  - reflexivity.
  - apply (bool_decide_unpack _). vm_compute. reflexivity.
Defined.

(** X5. Memoisation of a positive verdict: once [isPathImage] has answered
    [true] for a path, a call for the same path in any world whose cache
    still holds that entry answers [true] and leaves the world as it is,
    in whatever environment: the file system is not asked again. *)
Theorem isPathImage_true_is_memoised {P} (E E' : Environment P)
  (path : string) (w w2 : World P) :
  (isPathImage E path w).1 = true ->
  get_photo_type (cache w2) path
  = get_photo_type (cache (isPathImage E path w).2) path ->
  isPathImage E' path w2 = (true, w2).
Proof.
  intros Htrue Hsame.
  destruct (isPathImage_true_cached E path w Htrue) as [m Hm].
  rewrite Hm in Hsame. by eapply isPathImage_hit.
Qed.

Lemma isPathImage_true_is_memoised_witness :
  isPathImage E_sql "/B/ok.jpg" (isPathImage E0 "/B/ok.jpg" demo_world).2
  = (true, (isPathImage E0 "/B/ok.jpg" demo_world).2).
Proof.
  apply (isPathImage_true_is_memoised E0 E_sql "/B/ok.jpg" demo_world).
  - reflexivity.
  - reflexivity.
Defined.

(** X6. What classification never does: it leaves the store and every
    containment entry alone, keeps every type-cache entry it found, and
    adds to the trace only the opening of files and its own log lines. *)
Theorem isPathImage_frame {P} (E : Environment P) (path : string)
  (w : World P) :
  database (isPathImage E path w).2 = database w
  /\ (forall q, album_contains_photo (cache (isPathImage E path w).2) q
                = album_contains_photo (cache w) q)
  /\ (forall q m, get_photo_type (cache w) q = Some m ->
                  get_photo_type (cache (isPathImage E path w).2) q = Some m)
  /\ exists evs, trace (isPathImage E path w).2 = trace w ++ evs
                 /\ Forall classify_event evs.
Proof.
  destruct (isPathImage_grows E path w) as (Hd & Hev & _).
  split; [done|]. split; [apply isPathImage_album|].
  split; [apply isPathImage_keeps_types|done].
Qed.

(** ** The probe *)
Section MoreProbe.
Context {P : Type} (E : Environment P).
Implicit Types (w : World P) (s : probe_state P).

Lemma probe_entries_keeps_types dirPath dirContent q m :
  forall scanQueue w,
  get_photo_type (cache w) q = Some m ->
  match probe_entries E dirPath dirContent scanQueue w with
  | inl (_, w') => get_photo_type (cache w') q = Some m
  | inr w' => get_photo_type (cache w') q = Some m
  end.
Proof.
  induction dirContent as [|fileInfo rest IH]; intros sq w Hq; [done|].
  cbn -[GoPath.Join]. destruct (IsDir fileInfo); [by apply IH|].
  pose proof (isPathImage_keeps_types E
                (GoPath.Join [dirPath; Name fileInfo]) w q m Hq) as Hk.
  destruct (isPathImage E _ w) as [[] w1]; cbn in Hk; [done|by apply IH].
Qed.

(** The file that ends the inner loop. *)
Lemma probe_entries_inr_file dirPath dirContent : forall scanQueue w w1,
  probe_entries E dirPath dirContent scanQueue w = inr w1 ->
  exists fileInfo,
    fileInfo ∈ dirContent /\ IsDir fileInfo = false
    /\ is_Some (get_photo_type (cache w1)
                  (GoPath.Join [dirPath; Name fileInfo])).
Proof.
  induction dirContent as [|fileInfo rest IH]; intros sq w w1; [done|].
  cbn -[GoPath.Join]. destruct (IsDir fileInfo) eqn:Hdir.
  - intros H. destruct (IH _ _ _ H) as (f & Hin & Hf).
    exists f. split; [by apply list_elem_of_further|done].
  - pose proof (isPathImage_true_cached E
                  (GoPath.Join [dirPath; Name fileInfo]) w) as Hc.
    destruct (isPathImage E _ w) as [[] w2]; cbn in Hc.
    + intros [= <-]. exists fileInfo.
      split; [apply list_elem_of_here|]. split; [done|by apply Hc].
    + intros H. destruct (IH _ _ _ H) as (f & Hin & Hf).
      exists f. split; [by apply list_elem_of_further|done].
Qed.

End MoreProbe.

(** X7. A listing without an image is queued breadth-first: when the
    inner loop runs through, the queue it leaves is the queue it found
    followed by the sub-directories of the listing, each joined to the
    directory's path, in listing order, and by nothing else; the cache is
    the one it found. *)
Theorem probe_entries_enqueues_subdirectories {P} (E : Environment P)
  (dirPath : string) (dirContent : list FileInfo)
  (scanQueue scanQueue' : list string) (w w' : World P) :
  probe_entries E dirPath dirContent scanQueue w = inl (scanQueue', w') ->
  scanQueue'
  = scanQueue
    ++ ((fun fileInfo => GoPath.Join [dirPath; Name fileInfo])
          <$> List.filter IsDir dirContent)
  /\ cache w' = cache w.
Proof.
  intros Hrun. split; [|by apply probe_entries_inl in Hrun as [? _]].
  revert scanQueue w Hrun.
  induction dirContent as [|fileInfo rest IH]; intros q w.
  - intros [= <- <-]. by rewrite app_nil_r.
  - cbn -[GoPath.Join]. destruct (IsDir fileInfo).
    + intros H. rewrite (IH _ _ H). cbn -[GoPath.Join].
      by rewrite <- app_assoc.
    + destruct (isPathImage E _ w) as [[] w1]; [done|]. apply IH.
Qed.

Lemma probe_entries_enqueues_subdirectories_witness :
  exists w',
    probe_entries E0 "/E" [dir "f"; file "doc.pdf"; file "gone"] ["/q"]
      demo_world = inl (["/q"; "/E/f"], w')
    /\ cache w' = cache demo_world.
Proof.
  assert (exists w', probe_entries E0 "/E"
                       [dir "f"; file "doc.pdf"; file "gone"] ["/q"] demo_world
                     = inl (["/q"; "/E/f"], w')) as [w' Hrun]
    by (vm_compute; eauto).
  exists w'. split; [exact Hrun|].
  exact (proj2 (probe_entries_enqueues_subdirectories E0 "/E" _ _ _ _ _ Hrun)).
Defined.

(** X8. A probe that is not answered from the cache returns [true] only
    for a reason: some directory was listed at some time, and a file of
    that listing, not a directory, has a type-cache entry when the probe
    returns. *)
Theorem probe_true_has_image {P} (E : Environment P) (fuel : nat)
  (rootPath : string) (w w' : World P) :
  album_contains_photo (cache w) rootPath = None ->
  directoryContainsPhotos E fuel rootPath w = Some (true, w') ->
  exists t dirPath dirContent fileInfo,
    ioutil_ReadDir E t dirPath = Some dirContent
    /\ fileInfo ∈ dirContent /\ IsDir fileInfo = false
    /\ is_Some (get_photo_type (cache w')
                  (GoPath.Join [dirPath; Name fileInfo])).
Proof.
  intros Hmiss. unfold directoryContainsPhotos. rewrite Hmiss.
  intros Hloop.
  cut ((true, w').1 = true ->
       exists t dirPath dirContent fileInfo,
         ioutil_ReadDir E t dirPath = Some dirContent
         /\ fileInfo ∈ dirContent /\ IsDir fileInfo = false
         /\ is_Some (get_photo_type (cache (true, w').2)
                       (GoPath.Join [dirPath; Name fileInfo]))).
  { intros H. by apply H. }
  revert Hloop.
  apply (loop_invariant
           (fun _ : probe_state P => True)
           (fun r : bool * World P =>
              r.1 = true ->
              exists t dirPath dirContent fileInfo,
                ioutil_ReadDir E t dirPath = Some dirContent
                /\ fileInfo ∈ dirContent /\ IsDir fileInfo = false
                /\ is_Some (get_photo_type (cache r.2)
                              (GoPath.Join [dirPath; Name fileInfo]))));
    [done| |done].
  intros s r _. unfold probe_body.
  destruct (p_scanQueue s) as [|d q]; [by intros [= <-]|].
  destruct (ioutil_ReadDir E _ d) as [dirContent|] eqn:Hlist;
    [|by intros [= <-]].
  destruct (probe_entries E d dirContent q _) as [[q' w1]|w1] eqn:Hpe; [done|].
  destruct (insert_album_paths fuel _ _ _ _) as [c|] eqn:Hins; [|done].
  intros [= <-] _. cbn -[GoPath.Join].
  destruct (probe_entries_inr_file E _ _ _ _ _ Hpe) as (f & Hin & Hf & [m Hm]).
  exists (now (p_world s)), d, dirContent, f. repeat split; try done.
  exists m. by rewrite (insert_album_paths_photo_type _ _ _ _ _ _ _ Hins).
Qed.

Lemma probe_true_has_image_witness :
  exists w' t dirPath dirContent fileInfo,
    directoryContainsPhotos E0 10 "/R" demo_world = Some (true, w')
    /\ ioutil_ReadDir E0 t dirPath = Some dirContent
    /\ fileInfo ∈ dirContent /\ IsDir fileInfo = false
    /\ is_Some (get_photo_type (cache w')
                  (GoPath.Join [dirPath; Name fileInfo])).
Proof.
  assert (exists w', directoryContainsPhotos E0 10 "/R" demo_world
                     = Some (true, w')) as [w' Hrun]
    by (vm_compute; eauto).
  destruct (probe_true_has_image E0 10 "/R" demo_world w' eq_refl Hrun)
    as (t & d & c & f & H).
  by exists w', t, d, c, f.
Defined.

(** X9. What a probe never does, whatever it returns: it leaves the store
    alone, keeps every type-cache entry it found, and adds to the trace
    only listings, openings of files and the log lines of the two. *)
Theorem probe_frame {P} (E : Environment P) (fuel : nat) (rootPath : string)
  (w : World P) (b : bool) (w' : World P) :
  directoryContainsPhotos E fuel rootPath w = Some (b, w') ->
  database w' = database w
  /\ (forall q m, get_photo_type (cache w) q = Some m ->
                  get_photo_type (cache w') q = Some m)
  /\ exists evs, trace w' = trace w ++ evs /\ Forall probe_event evs.
Proof.
  intros Hrun.
  destruct (directoryContainsPhotos_grows E _ _ _ _ _ Hrun) as (Hd & Hev & _).
  split; [done|]. split; [|done].
  intros q m Hq. revert Hrun. unfold directoryContainsPhotos.
  destruct (album_contains_photo (cache w) rootPath) as [hit|].
  { by intros [= <- <-]. }
  apply (loop_invariant
           (fun s : probe_state P => get_photo_type (cache (p_world s)) q = Some m)
           (fun r : bool * World P => get_photo_type (cache r.2) q = Some m)).
  - intros s s' Hs. unfold probe_body.
    destruct (p_scanQueue s) as [|d sq]; [done|].
    destruct (ioutil_ReadDir E _ d) as [dirContent|]; [|done].
    pose proof (probe_entries_keeps_types E d dirContent q m sq
                  (emit [ReadDir_ev d true] (p_world s)) Hs) as Hk.
    destruct (probe_entries E d dirContent sq _) as [[q' w1]|w1];
      [|by destruct (insert_album_paths fuel _ _ _ _)].
    by intros [= <-].
  - intros s r Hs. unfold probe_body.
    destruct (p_scanQueue s) as [|d sq].
    { intros [= <-]. cbn. by rewrite get_photo_type_mark. }
    destruct (ioutil_ReadDir E _ d) as [dirContent|]; [|by intros [= <-]].
    pose proof (probe_entries_keeps_types E d dirContent q m sq
                  (emit [ReadDir_ev d true] (p_world s)) Hs) as Hk.
    destruct (probe_entries E d dirContent sq _) as [[q' w1]|w1]; [done|].
    destruct (insert_album_paths fuel _ _ _ _) as [c|] eqn:Hins; [|done].
    intros [= <-]. cbn.
    by rewrite (insert_album_paths_photo_type _ _ _ _ _ _ _ Hins).
  - done.
Qed.

Lemma probe_frame_witness :
  exists w',
    directoryContainsPhotos E0 10 "/R" demo_world = Some (true, w')
    /\ database w' = database demo_world
    /\ (forall q m, get_photo_type (cache demo_world) q = Some m ->
                    get_photo_type (cache w') q = Some m)
    /\ exists evs, trace w' = trace demo_world ++ evs /\ Forall probe_event evs.
Proof.
  assert (exists w', directoryContainsPhotos E0 10 "/R" demo_world
                     = Some (true, w')) as [w' Hrun]
    by (vm_compute; eauto).
  exists w'. split; [exact Hrun|].
  exact (probe_frame E0 10 "/R" demo_world true w' Hrun).
Defined.

(** X10. A negative answer is memoised: after a probe that ran its queue
    empty, a probe rooted at any directory it dequeued returns [false] at
    once, in whatever environment and with whatever fuel, and leaves the
    world as it is. *)
Theorem exhausted_probe_is_memoised {P} (E E' : Environment P) (fuel0 : nat)
  (rootPath : string) (w : World P) (n : nat) (s : probe_state P) :
  album_contains_photo (cache w) rootPath = None ->
  iterations (probe_body E fuel0 rootPath) n (probe_init rootPath w) = Some s ->
  p_scanQueue s = [] ->
  exists w',
    (forall fuel, (n < fuel)%nat ->
       directoryContainsPhotos E fuel rootPath w = Some (false, w'))
    /\ forall fuel' d, d ∈ p_scanned_directories s ->
         directoryContainsPhotos E' fuel' d w' = Some (false, w').
Proof.
  intros Hmiss Hit Hq.
  exists (mark_scanned (p_scanned_directories s) (p_world s)). split.
  - intros fuel Hf.
    rewrite (probe_from_iterations E fuel0 fuel _ _ n s); try done.
    unfold probe_body. by rewrite Hq.
  - intros fuel' d Hin. unfold directoryContainsPhotos. cbn [mark_scanned cache set_cache].
    rewrite album_contains_photo_mark. by rewrite decide_True.
Qed.

Lemma exhausted_probe_is_memoised_witness :
  exists w',
    (forall fuel, (2 < fuel)%nat ->
       directoryContainsPhotos E0 fuel "/E" demo_world = Some (false, w'))
    /\ directoryContainsPhotos E_sql 0 "/E/f" w' = Some (false, w').
Proof.
  edestruct (exhausted_probe_is_memoised E0 E_sql 5 "/E" demo_world 2)
    as (w' & Hrun & Hmemo).
  - reflexivity.
  - vm_compute. reflexivity.
  - reflexivity.
  - exists w'. split; [exact Hrun|].
    apply Hmemo. apply list_elem_of_In. cbn. tauto.
Defined.

(** X11. A positive answer is memoised along the chain: after a probe
    that found an image in [dirPath], a probe rooted at [dirPath] or at
    any of its ancestors strictly below the first probe's root returns
    [true] at once, in whatever environment and with whatever fuel, and
    leaves the world as it is. *)
Theorem found_probe_is_memoised {P} (E E' : Environment P) (fuel0 : nat)
  (rootPath : string) (w : World P) (n : nat) (s : probe_state P)
  (dirPath : string) (scanQueue : list string) (dirContent : list FileInfo)
  (w1 : World P) (k : nat) :
  album_contains_photo (cache w) rootPath = None ->
  iterations (probe_body E fuel0 rootPath) n (probe_init rootPath w) = Some s ->
  p_scanQueue s = dirPath :: scanQueue ->
  ioutil_ReadDir E (now (p_world s)) dirPath = Some dirContent ->
  probe_entries E dirPath dirContent scanQueue
    (emit [ReadDir_ev dirPath true] (p_world s)) = inr w1 ->
  Nat.iter k GoPath.Dir (GoPath.Clean dirPath) = GoPath.Clean rootPath ->
  (forall j, (j <= k)%nat ->
     Nat.iter j GoPath.Dir (GoPath.Clean dirPath) ≠ ".") ->
  exists m w',
    (m <= k)%nat
    /\ Nat.iter m GoPath.Dir (GoPath.Clean dirPath) = GoPath.Clean rootPath
    /\ (forall fuel, (n + m < fuel)%nat ->
          directoryContainsPhotos E fuel rootPath w = Some (true, w'))
    /\ forall fuel' p, p ∈ ancestors m (GoPath.Clean dirPath) ->
         directoryContainsPhotos E' fuel' p w' = Some (true, w').
Proof.
  intros Hmiss Hit Hq Hlist Hfound Hk Hdot.
  destruct (insert_album_paths_run _ true k _ (cache w1) Hk Hdot)
    as (m & Hm & Hiter & _ & Hloop).
  exists m, (set_cache (mark_all (ancestors m (GoPath.Clean dirPath)) true
                                 (cache w1)) w1).
  split; [done|]. split; [done|]. split.
  - intros fuel Hf.
    rewrite (probe_from_iterations E fuel0 fuel _ _ n s); [|done|done|lia].
    unfold probe_body. rewrite Hq, Hlist, Hfound.
    unfold insert_album_paths. by rewrite Hloop by lia.
  - intros fuel' p Hin. unfold directoryContainsPhotos.
    cbn [cache set_cache].
    rewrite album_contains_photo_mark. by rewrite decide_True.
Qed.

Lemma found_probe_is_memoised_witness :
  exists w',
    directoryContainsPhotos E0 10 "/R" demo_world = Some (true, w')
    /\ directoryContainsPhotos E_sql 0 "/R/x" w' = Some (true, w').
Proof.
  edestruct (found_probe_is_memoised E0 E_sql 10 "/R" demo_world 3)
    with (k := 3%nat) as (m & w' & Hm & Hiter & Hrun & Hmemo).
  - reflexivity.
  - vm_compute. reflexivity.
  - reflexivity.
  - reflexivity.
  - vm_compute. reflexivity.
  - reflexivity.
  - intros j Hj.
    destruct j as [|[|[|[|j]]]]; [vm_compute; discriminate .. | lia].
  - exists w'. split; [apply Hrun; lia|].
    assert (m = 3%nat) as ->.
    { destruct m as [|[|[|[|m]]]];
        [vm_compute in Hiter; discriminate ..|done|lia]. }
    apply Hmemo. apply list_elem_of_In. vm_compute. tauto.
Defined.

(** ** The album transaction *)

(** X12. The album transaction is all or nothing: when [scan] returns out
    of it, whichever statement failed (a failed commit commits nothing),
    the store and the cache are the ones it started with. *)
Theorem album_transaction_failure_leaves_store {P} (E : Environment P)
  (user : User) (albumPath : string) (albumParentId : option Z)
  (w w' : World P) :
  album_transaction E user albumPath albumParentId w = inr w' ->
  database w' = database w /\ cache w' = cache w.
Proof.
  unfold album_transaction.
  destruct (sql_fails E (now w)); [by intros [= <-]|].
  destruct (sql_fails E (now (emit _ w))); [by intros [= <-]|].
  destruct (sql_fails E (now (emit [Exec_ev true] _))); [by intros [= <-]|].
  destruct (select_album_id albumPath _) as [albumId|]; [|by intros [= <-]].
  destruct (sql_fails E (now (emit [QueryRow_ev true] _)));
    [by intros [= <-]|done].
Qed.

Lemma album_transaction_failure_leaves_store_witness :
  exists w',
    album_transaction E_sql user_R "/R" None (fresh_world db_abc) = inr w'
    /\ database w' = db_abc /\ cache w' = ∅.
Proof.
  assert (exists w', album_transaction E_sql user_R "/R" None
                       (fresh_world db_abc) = inr w') as [w' Hrun]
    by (vm_compute; eauto).
  exists w'. split; [exact Hrun|].
  exact (album_transaction_failure_leaves_store E_sql user_R "/R" None
           (fresh_world db_abc) w' Hrun).
Defined.

Section MoreAlbum.
Context {P : Type} (E : Environment P).

Lemma find_exists {A} (f : A -> bool) (l : list A) x :
  x ∈ l -> f x = true -> exists y, find f l = Some y.
Proof.
  intros Hin Hf. destruct (find f l) as [y|] eqn:Hfind; [by exists y|].
  apply list_elem_of_In in Hin.
  by rewrite (find_none _ _ Hfind _ Hin) in Hf.
Qed.

End MoreAlbum.

(** X13. When the store answers every statement and rows collide on a
    UNIQUE key only if they have the same path, the album transaction
    always commits: the store becomes what [INSERT IGNORE] made of it, and
    the id read back is the id of a stored row with the directory's
    path. *)
Theorem album_transaction_reads_back {P} (E : Environment P) (user : User)
  (albumPath : string) (albumParentId : option Z) (w : World P) :
  (forall t, sql_fails E t = false) ->
  (forall r1 r2, album_unique E r1 r2 = true -> row_path r1 = row_path r2) ->
  exists albumId w',
    album_transaction E user albumPath albumParentId w = inl (albumId, w')
    /\ database w'
       = insert_ignore_album E (GoPath.Base albumPath) albumParentId
           (UserID user) albumPath (database w)
    /\ exists r, r ∈ album (database w')
                 /\ row_album_id r = albumId /\ row_path r = albumPath.
Proof.
  intros Hsql Hunique. unfold album_transaction. rewrite !Hsql.
  set (tx := insert_ignore_album E (GoPath.Base albumPath) albumParentId
               (UserID user) albumPath (database w)).
  assert (exists r, find (fun r => String.eqb (row_path r) albumPath) (album tx)
                    = Some r) as [r Hfind].
  { unfold tx, insert_ignore_album.
    destruct (existsb _ (album (database w))) eqn:Hex.
    - apply existsb_exists in Hex as (r' & Hin & Hcol).
      apply Hunique in Hcol. cbn in Hcol.
      apply (find_exists _ _ r'); [by apply list_elem_of_In|].
      apply String.eqb_eq. done.
    - cbn. eapply find_exists.
      + apply elem_of_app. right. apply list_elem_of_here.
      + cbn. apply String.eqb_refl. }
  unfold select_album_id. rewrite Hfind. cbn.
  eexists _, _. split; [reflexivity|]. split; [reflexivity|].
  apply find_some in Hfind as [Hin Heq].
  exists r. split; [by apply list_elem_of_In|].
  split; [done|by apply String.eqb_eq].
Qed.

Lemma album_transaction_reads_back_witness :
  exists albumId w',
    album_transaction (demo_env unique_path) user_R "/R" None demo_world
    = inl (albumId, w')
    /\ database w'
       = insert_ignore_album (demo_env unique_path) (GoPath.Base "/R") None
           (UserID user_R) "/R" (database demo_world)
    /\ exists r, r ∈ album (database w')
                 /\ row_album_id r = albumId /\ row_path r = "/R".
Proof.
  apply (album_transaction_reads_back (demo_env unique_path) user_R "/R" None
           demo_world).
  - reflexivity.
  - intros r1 r2 H. apply String.eqb_eq. exact H.
Defined.

(** ** The traversal *)

(** X15. An unreadable root: when the first listing fails, [scan] returns
    after that one attempt and its log line.  The store is untouched, no
    transaction was begun and the reconciliation pass did not run, so no
    album is lost to a root that is not mounted. *)
Theorem scan_unreadable_root {P} (E : Environment P) (fuel : nat)
  (user : User) (db : Database P) :
  ioutil_ReadDir E 0 (RootPath user) = None ->
  scan E (Datatypes.S fuel) user db
  = Some (emit [ReadDir_ev (RootPath user) false;
                Log_ev "Could not read directory: %s\n" []] (fresh_world db)).
Proof.
  intros Hlist. unfold scan. cbn [loop].
  unfold scan_body. cbn [scan_init s_scanQueue s_world si_path].
  change (now (fresh_world db)) with 0%nat. by rewrite Hlist.
Qed.

Lemma scan_unreadable_root_witness :
  scan E0 1 user_nowhere db_abc
  = Some (emit [ReadDir_ev "/nowhere" false;
                Log_ev "Could not read directory: %s\n" []]
               (fresh_world db_abc)).
Proof.
  apply (scan_unreadable_root E0 0 user_nowhere db_abc). reflexivity.
Defined.

(** X16. Whatever [scan] hands to [ProcessImage], it hands with one of the
    [SupportedMimetypes], and the file's header was read and sniffed to
    exactly that type at some time of the run. *)
Theorem ProcessImage_gets_supported_type {P} (E : Environment P) (fuel : nat)
  (user : User) (db : Database P) (wf : World P) (photoPath : string)
  (albumId : Z) (content_type : string) (ok : bool) :
  scan E fuel user db = Some wf ->
  ProcessImage_ev photoPath albumId content_type ok ∈ trace wf ->
  content_type ∈ SupportedMimetypes
  /\ exists t head,
       os_Open E t photoPath = Head head
       /\ filetype_Image E head = Some content_type.
Proof.
  intros Hscan Hin. apply scan_outcome_holds in Hscan.
  assert (exists t, sniffs E t photoPath = Some content_type) as [t Ht].
  { destruct (scan_outcome_event E _ _ _ Hscan Hin)
      as [Hw|[(p & i & ct & Hr & Hs)|Hs]].
    - by destruct Hw as (_ & Hs).
    - apply elem_of_cons in Hr as [Hr|Hr].
      + by injection Hr as -> _ -> _.
      + repeat (apply elem_of_cons in Hr as [Hr|Hr]; [discriminate Hr|]).
        by apply elem_of_nil in Hr.
    - done. }
  apply sniffs_supported in Ht as (Hsup & head & HO & HI).
  split; [done|]. by exists t, head.
Qed.

Lemma ProcessImage_gets_supported_type_witness :
  "image/jpeg" ∈ SupportedMimetypes
  /\ exists t head,
       os_Open E0 t "/B/ok.jpg" = Head head
       /\ filetype_Image E0 head = Some "image/jpeg".
Proof.
  assert (exists wf, scan E0 10 user_B empty_db = Some wf) as [wf Hscan]
    by (vm_compute; eauto).
  apply (ProcessImage_gets_supported_type E0 10 user_B empty_db wf
           "/B/ok.jpg" 1 "image/jpeg" true Hscan).
  pose proof Hscan as Hval. vm_compute in Hval. injection Hval as <-.
  apply list_elem_of_In. vm_compute. tauto.
Defined.

(** *** Transactions are opened and closed in turn *)
Section Discipline.
Context {P : Type} (E : Environment P).
Implicit Types (w : World P) (evs : list (Event P)).

Lemma tx_discipline_app open evs1 evs2 :
  tx_discipline open (evs1 ++ evs2)
  = match tx_discipline open evs1 with
    | Some open' => tx_discipline open' evs2
    | None => None
    end.
Proof.
  revert open. induction evs1 as [|e evs1 IH]; intros open; [done|].
  destruct e, open; cbn; try done; apply IH.
Qed.

Lemma tx_discipline_probe open evs :
  Forall probe_event evs -> tx_discipline open evs = Some open.
Proof.
  induction 1 as [|e evs He _ IH]; [done|]. destruct e; cbn in *; done.
Qed.

Lemma tx_discipline_sweep evs :
  Forall sweep_event evs -> tx_discipline false evs = Some false.
Proof.
  induction 1 as [|e evs He _ IH]; [done|]. destruct e; cbn in *; done.
Qed.

Lemma tx_closed_grows w w' :
  tx_closed w -> grows E probe_event w w' -> tx_closed w'.
Proof.
  intros Hw (_ & (evs & Ht & Hev) & _). unfold tx_closed.
  by rewrite Ht, tx_discipline_app, Hw, tx_discipline_probe.
Qed.

Ltac tx_solve H :=
  unfold tx_closed in *; cbn [trace emit set_database];
  rewrite <- ?app_assoc; rewrite tx_discipline_app, H; reflexivity.

Lemma album_transaction_closed user albumPath albumParentId w :
  tx_closed w ->
  match album_transaction E user albumPath albumParentId w with
  | inl (_, w') => tx_closed w'
  | inr w' => tx_closed w'
  end.
Proof.
  intros Hw. unfold album_transaction.
  destruct (sql_fails E (now w)); [tx_solve Hw|].
  destruct (sql_fails E (now (emit _ w))); [tx_solve Hw|].
  destruct (sql_fails E (now (emit [Exec_ev true] _))); [tx_solve Hw|].
  destruct (select_album_id albumPath _) as [albumId|]; [|tx_solve Hw].
  destruct (sql_fails E (now (emit [QueryRow_ev true] _))); tx_solve Hw.
Qed.

Lemma scan_photos_closed albumPath albumId dirContent : forall w,
  tx_closed w ->
  match scan_photos E albumPath albumId dirContent w with
  | inl w' => tx_closed w'
  | inr w' => tx_closed w'
  end.
Proof.
  induction dirContent as [|item rest IH]; intros w Hw; [done|].
  cbn -[GoPath.Join]. set (photoPath := GoPath.Join [albumPath; Name item]).
  destruct (IsDir item); [by apply IH|].
  pose proof (isPathImage_grows E photoPath w) as Hg.
  pose proof (isPathImage_true_cached E photoPath w) as Hcached.
  destruct (isPathImage E photoPath w) as [is_image w1]. cbn in Hg, Hcached.
  apply (grows_weaken E _ probe_event) in Hg; [|apply classify_probe_event].
  apply (tx_closed_grows _ _ Hw) in Hg.
  destruct is_image; cbn [negb]; [|by apply IH].
  destruct (sql_fails E (now w1)); [tx_solve Hg|].
  change (cache (emit [Begin_ev true] w1)) with (cache w1).
  destruct (Hcached eq_refl) as [content_type Hct]. rewrite Hct.
  destruct (ProcessImage E _ (database w1) photoPath albumId content_type)
    as [tx' ok].
  destruct ok; [|tx_solve Hg].
  destruct (sql_fails E _); apply IH; tx_solve Hg.
Qed.

Lemma scan_subalbums_closed fuel albumPath albumId dirContent :
  forall scanQueue w scanQueue' w',
  tx_closed w ->
  scan_subalbums E fuel albumPath albumId dirContent scanQueue w
  = Some (scanQueue', w') ->
  tx_closed w'.
Proof.
  induction dirContent as [|item rest IH]; intros q w q' w' Hw.
  - by intros [= <- <-].
  - cbn -[GoPath.Join]. destruct (IsDir item); [|by apply IH].
    destruct (directoryContainsPhotos E fuel _ w) as [[b w1]|] eqn:Hprobe;
      [|done].
    apply directoryContainsPhotos_grows in Hprobe.
    apply (tx_closed_grows _ _ Hw) in Hprobe.
    destruct b; by apply IH.
Qed.

Lemma scan_body_closed fuel user (s : scan_state P) :
  tx_closed (s_world s) ->
  match scan_body E fuel user s with
  | Some (inl s') => tx_closed (s_world s')
  | Some (inr (Drained _ w')) => tx_closed w'
  | Some (inr (Returned w')) => tx_closed w'
  | None => True
  end.
Proof.
  intros Hw. unfold scan_body.
  destruct (s_scanQueue s) as [|albumInfo scanQueue]; [done|].
  destruct (ioutil_ReadDir E _ _) as [dirContent|]; [|tx_solve Hw].
  assert (tx_closed (emit [ReadDir_ev (si_path albumInfo) true] (s_world s)))
    as Hw0 by tx_solve Hw.
  pose proof (album_transaction_closed user (si_path albumInfo)
                (si_parentId albumInfo) _ Hw0) as Htx.
  destruct (album_transaction E user _ _ _) as [[albumId w1]|w1]; [|done].
  pose proof (scan_photos_closed (si_path albumInfo) albumId dirContent w1 Htx)
    as Hphotos.
  destruct (scan_photos E _ albumId dirContent w1) as [w2|w2]; [|done].
  destruct (scan_subalbums E fuel _ albumId dirContent scanQueue w2)
    as [[scanQueue' w3]|] eqn:Hsub; [|done].
  cbn. by eapply scan_subalbums_closed.
Qed.

End Discipline.

(** X17. In every run of [scan] transactions are opened and closed in
    turn: none begins inside another, the album statements and
    [ProcessImage] run only inside an open one, each one begun is
    committed or rolled back, the reconciliation pass runs with none
    open, and none is open when the run ends. *)
Theorem scan_closes_transactions {P} (E : Environment P) (fuel : nat)
  (user : User) (db : Database P) (wf : World P) :
  scan E fuel user db = Some wf ->
  tx_discipline false (trace wf) = Some false.
Proof.
  unfold scan.
  destruct (loop (scan_body E fuel user) fuel (scan_init user db))
    as [exit|] eqn:Hloop; [|done].
  assert (match exit with
          | Drained _ w' => tx_closed w'
          | Returned w' => tx_closed w'
          end) as Hexit.
  { revert Hloop.
    apply (loop_invariant
             (fun s : scan_state P => tx_closed (s_world s))
             (fun exit : scan_exit P =>
                match exit with
                | Drained _ w' => tx_closed w'
                | Returned w' => tx_closed w'
                end)).
    - intros s s' Hw Hb. pose proof (scan_body_closed E fuel user s Hw) as H.
      by rewrite Hb in H.
    - intros s r Hw Hb. pose proof (scan_body_closed E fuel user s Hw) as H.
      by rewrite Hb in H.
    - reflexivity. }
  destruct exit as [paths w'|w']; intros [= <-]; [|done].
  destruct (cleanupCache_sweep E paths user w') as (evs & Ht & Hsw & _).
  cbn [trace emit]. rewrite Ht, <- app_assoc, tx_discipline_app, Hexit.
  apply tx_discipline_sweep. apply Forall_app. split; [done|].
  by repeat constructor.
Qed.

Lemma scan_closes_transactions_witness :
  exists wf,
    scan E0 10 user_B empty_db = Some wf
    /\ tx_discipline false (trace wf) = Some false.
Proof.
  assert (exists wf, scan E0 10 user_B empty_db = Some wf) as [wf Hscan]
    by (vm_compute; eauto).
  exists wf. split; [exact Hscan|].
  exact (scan_closes_transactions E0 10 user_B empty_db wf Hscan).
Defined.

(** *** What a pass of the traversal puts in the queue and hands on *)

(** X18. The sub-album loop only appends to the queue, and every task it
    appends is a directory of the listing, joined to the album's path,
    with the album's id as parent: files are never enqueued and no task
    loses its parent. *)
Theorem scan_subalbums_links_parent {P} (E : Environment P) (fuel : nat)
  (albumPath : string) (albumId : Z) (dirContent : list FileInfo)
  (scanQueue scanQueue' : list scanInfo) (w w' : World P) :
  scan_subalbums E fuel albumPath albumId dirContent scanQueue w
  = Some (scanQueue', w') ->
  exists added,
    scanQueue' = scanQueue ++ added
    /\ Forall (fun task =>
                 si_parentId task = Some albumId
                 /\ exists item, item ∈ dirContent /\ IsDir item = true
                      /\ si_path task = GoPath.Join [albumPath; Name item])
              added.
Proof.
  revert scanQueue w.
  induction dirContent as [|item rest IH]; intros q w.
  - intros [= <- <-]. exists []. by rewrite app_nil_r.
  - cbn -[GoPath.Join]. destruct (IsDir item) eqn:Hdir.
    + destruct (directoryContainsPhotos E fuel _ w) as [[[] w1]|]; [| |done].
      * intros H. destruct (IH _ _ H) as (added & -> & Hall).
        exists ({| si_path := GoPath.Join [albumPath; Name item];
                   si_parentId := Some albumId |} :: added).
        rewrite <- app_assoc. split; [done|]. constructor.
        -- split; [done|]. exists item. split; [apply list_elem_of_here|done].
        -- eapply Forall_impl; [exact Hall|].
           intros task (Hp & it & Hin & Hd & Hpath). split; [done|].
           exists it. split; [by apply list_elem_of_further|done].
      * intros H. destruct (IH _ _ H) as (added & -> & Hall).
        exists added. split; [done|].
        eapply Forall_impl; [exact Hall|].
        intros task (Hp & it & Hin & Hd & Hpath). split; [done|].
        exists it. split; [by apply list_elem_of_further|done].
    + intros H. destruct (IH _ _ H) as (added & -> & Hall).
      exists added. split; [done|].
      eapply Forall_impl; [exact Hall|].
      intros task (Hp & it & Hin & Hd & Hpath). split; [done|].
      exists it. split; [by apply list_elem_of_further|done].
Qed.

Lemma scan_subalbums_links_parent_witness :
  exists scanQueue' w' added,
    scan_subalbums E0 10 "/R" 7 [dir "x"] [] demo_world = Some (scanQueue', w')
    /\ scanQueue' = [] ++ added
    /\ Forall (fun task =>
                 si_parentId task = Some 7
                 /\ exists item, item ∈ [dir "x"] /\ IsDir item = true
                      /\ si_path task = GoPath.Join ["/R"; Name item])
              added.
Proof.
  assert (exists r, scan_subalbums E0 10 "/R" 7 [dir "x"] [] demo_world
                    = Some r) as [[q' w'] Hrun]
    by (vm_compute; eauto).
  destruct (scan_subalbums_links_parent E0 10 "/R" 7 [dir "x"] [] q'
              demo_world w' Hrun) as (added & Hq & Hall).
  by exists q', w', added.
Defined.

(** X19. The photo loop hands to [ProcessImage] only files of the listing,
    never a directory, each joined to the album's path, and always with
    the album id of the directory being scanned; this holds whether the
    loop runs through or [scan] returns out of it. *)
Theorem scan_photos_attaches_to_album {P} (E : Environment P)
  (albumPath : string) (albumId : Z) (dirContent : list FileInfo)
  (w : World P) :
  exists evs,
    trace (match scan_photos E albumPath albumId dirContent w with
           | inl w' => w'
           | inr w' => w'
           end) = trace w ++ evs
    /\ forall photoPath id content_type ok,
         ProcessImage_ev photoPath id content_type ok ∈ evs ->
         id = albumId
         /\ exists item, item ∈ dirContent /\ IsDir item = false
              /\ photoPath = GoPath.Join [albumPath; Name item].
Proof.
  revert w. induction dirContent as [|item rest IH]; intros w.
  - exists []. rewrite app_nil_r. split; [done|]. by intros ? ? ? ? ?%elem_of_nil.
  - assert (forall w0 evs0,
              trace w0 = trace w ++ evs0 ->
              (forall photoPath id content_type ok,
                 ProcessImage_ev photoPath id content_type ok ∈ evs0 ->
                 id = albumId
                 /\ photoPath = GoPath.Join [albumPath; Name item]
                 /\ IsDir item = false) ->
              exists evs,
                trace (match scan_photos E albumPath albumId rest w0 with
                       | inl w' => w'
                       | inr w' => w'
                       end) = trace w ++ evs
                /\ forall photoPath id content_type ok,
                     ProcessImage_ev photoPath id content_type ok ∈ evs ->
                     id = albumId
                     /\ exists it, it ∈ item :: rest /\ IsDir it = false
                          /\ photoPath = GoPath.Join [albumPath; Name it])
      as Hrest.
    { intros w0 evs0 Ht0 Hev0. destruct (IH w0) as (evs & Ht & Hev).
      exists (evs0 ++ evs). rewrite Ht, Ht0, <- app_assoc. split; [done|].
      intros p i ct ok [Hin|Hin]%elem_of_app.
      - destruct (Hev0 _ _ _ _ Hin) as (-> & -> & Hd). split; [done|].
        exists item. split; [apply list_elem_of_here|done].
      - destruct (Hev _ _ _ _ Hin) as (-> & it & Hit & Hd & ->).
        split; [done|]. exists it.
        split; [by apply list_elem_of_further|done]. }
    assert (forall w0 evs0,
              trace w0 = trace w ++ evs0 ->
              (forall photoPath id content_type ok,
                 ProcessImage_ev photoPath id content_type ok ∈ evs0 ->
                 id = albumId
                 /\ photoPath = GoPath.Join [albumPath; Name item]
                 /\ IsDir item = false) ->
              exists evs,
                trace w0 = trace w ++ evs
                /\ forall photoPath id content_type ok,
                     ProcessImage_ev photoPath id content_type ok ∈ evs ->
                     id = albumId
                     /\ exists it, it ∈ item :: rest /\ IsDir it = false
                          /\ photoPath = GoPath.Join [albumPath; Name it])
      as Hstop.
    { intros w0 evs0 Ht0 Hev0. exists evs0. split; [done|].
      intros p i ct ok Hin. destruct (Hev0 _ _ _ _ Hin) as (-> & -> & Hd).
      split; [done|]. exists item. split; [apply list_elem_of_here|done]. }
    cbn -[GoPath.Join]. set (photoPath := GoPath.Join [albumPath; Name item]).
    destruct (IsDir item) eqn:Hdir.
    { apply (Hrest w []); [by rewrite app_nil_r|].
      by intros ? ? ? ? ?%elem_of_nil. }
    pose proof (isPathImage_grows E photoPath w) as (_ & (evs1 & Ht1 & Hev1) & _).
    assert (forall p i ct ok, ProcessImage_ev p i ct ok ∉ evs1) as Hno1.
    { intros p i ct ok Hin.
      eapply Forall_forall in Hev1; [|exact Hin]. exact Hev1. }
    destruct (isPathImage E photoPath w) as [is_image w1]. cbn in Ht1.
    destruct is_image; cbn [negb].
    2:{ apply (Hrest w1 evs1 Ht1). intros p i ct ok Hin.
        by destruct (Hno1 _ _ _ _ Hin). }
    destruct (sql_fails E (now w1)).
    { eapply (Hstop _ (evs1 ++ [Begin_ev false; _])).
      - cbn. by rewrite Ht1, <- app_assoc.
      - intros p i ct ok [Hin|Hin]%elem_of_app;
          [by destruct (Hno1 _ _ _ _ Hin)|].
        repeat (apply elem_of_cons in Hin as [Hin|Hin]; [discriminate Hin|]).
        by apply elem_of_nil in Hin. }
    change (cache (emit [Begin_ev true] w1)) with (cache w1).
    destruct (get_photo_type (cache w1) photoPath) as [content_type|].
    2:{ eapply (Hstop _ (evs1 ++ [Begin_ev true; _])).
        - cbn. by rewrite Ht1, <- !app_assoc.
        - intros p i ct ok [Hin|Hin]%elem_of_app;
            [by destruct (Hno1 _ _ _ _ Hin)|].
          repeat (apply elem_of_cons in Hin as [Hin|Hin]; [discriminate Hin|]).
          by apply elem_of_nil in Hin. }
    destruct (ProcessImage E _ (database w1) photoPath albumId content_type)
      as [tx' ok0].
    assert (forall tail p i ct ok,
              Forall (fun e => forall p i ct ok,
                                 e ≠ ProcessImage_ev p i ct ok) tail ->
              @ProcessImage_ev P p i ct ok
              ∈ evs1 ++ Begin_ev true
                  :: ProcessImage_ev photoPath albumId content_type ok0
                  :: tail ->
              i = albumId /\ p = photoPath /\ false = false) as Hmid.
    { intros tail p i ct ok Htail [Hin|Hin]%elem_of_app;
        [by destruct (Hno1 _ _ _ _ Hin)|].
      apply elem_of_cons in Hin as [Hin|Hin]; [discriminate Hin|].
      apply elem_of_cons in Hin as [Hin|Hin]; [by injection Hin as -> -> _ _|].
      eapply Forall_forall in Htail; [|exact Hin]. by destruct (Htail p i ct ok). }
    destruct ok0.
    + destruct (sql_fails E _).
      * eapply (Hrest _ (evs1 ++ [Begin_ev true; _; Commit_ev tx' false])).
        -- cbn. by rewrite Ht1, <- !app_assoc.
        -- intros p i ct ok Hin. eapply Hmid; [|exact Hin].
           by repeat constructor.
      * eapply (Hrest _ (evs1 ++ [Begin_ev true; _; Commit_ev tx' true])).
        -- cbn. by rewrite Ht1, <- !app_assoc.
        -- intros p i ct ok Hin. eapply Hmid; [|exact Hin].
           by repeat constructor.
    + eapply (Hstop _ (evs1 ++ [Begin_ev true; _; _; Rollback_ev])).
      * cbn. by rewrite Ht1, <- !app_assoc.
      * intros p i ct ok Hin. eapply Hmid; [|exact Hin].
        by repeat constructor.
Qed.

(** X20. The list of visited paths that a drained traversal hands to the
    reconciliation pass starts with the user's root path: the root is
    always counted as visited. *)
Theorem drained_traversal_root_first {P} (E : Environment P) (fuel : nat)
  (user : User) (db : Database P) (scanned_albums : list string)
  (w : World P) :
  loop (scan_body E fuel user) fuel (scan_init user db)
  = Some (Drained scanned_albums w) ->
  exists rest, scanned_albums = RootPath user :: rest.
Proof.
  intros Hloop.
  { revert Hloop.
    apply (loop_invariant
             (fun s : scan_state P =>
                (s_album_paths_scanned s = []
                 /\ exists parent,
                      s_scanQueue s = [{| si_path := RootPath user;
                                          si_parentId := parent |}])
                \/ exists rest, s_album_paths_scanned s = RootPath user :: rest)
             (fun exit : scan_exit P =>
                match exit with
                | Drained scanned_albums _ =>
                    exists rest, scanned_albums = RootPath user :: rest
                | Returned _ => True
                end)).
    - intros s s' Hinv. unfold scan_body.
      destruct (s_scanQueue s) as [|albumInfo scanQueue] eqn:Hq; [done|].
      destruct (ioutil_ReadDir E _ _) as [dirContent|]; [|done].
      destruct (album_transaction E user _ _ _) as [[albumId w1]|w1]; [|done].
      destruct (scan_photos E _ albumId dirContent w1) as [w2|w2]; [|done].
      destruct (scan_subalbums E fuel _ albumId dirContent scanQueue w2)
        as [[scanQueue' w3]|]; [|done].
      intros [= <-]. right. cbn.
      destruct Hinv as [[-> [parent Hroot]]|[rest ->]].
      + injection Hroot as -> _. by exists [].
      + by eexists.
    - intros s exit Hinv. unfold scan_body.
      destruct (s_scanQueue s) as [|albumInfo scanQueue].
      { intros [= <-]. destruct Hinv as [[_ [parent Hroot]]|Hrest]; done. }
      destruct (ioutil_ReadDir E _ _) as [dirContent|]; [|by intros [= <-]].
      destruct (album_transaction E user _ _ _) as [[albumId w1]|w1];
        [|by intros [= <-]].
      destruct (scan_photos E _ albumId dirContent w1) as [w2|w2];
        [|by intros [= <-]].
      by destruct (scan_subalbums E fuel _ albumId dirContent scanQueue w2)
        as [[scanQueue' w3]|].
    - left. split; [done|]. by exists None. }
Qed.

Lemma drained_traversal_root_first_witness :
  exists scanned_albums w,
    loop (scan_body E0 10 user_E) 10 (scan_init user_E empty_db)
    = Some (Drained scanned_albums w)
    /\ exists rest, scanned_albums = RootPath user_E :: rest.
Proof.
  assert (exists V w, loop (scan_body E0 10 user_E) 10
                        (scan_init user_E empty_db) = Some (Drained V w))
    as (V & w & Hloop) by (vm_compute; eauto).
  exists V, w. split; [exact Hloop|].
  exact (drained_traversal_root_first E0 10 user_E empty_db V w Hloop).
Defined.

(** ** The reconciliation pass, whatever fails *)
Section MoreCleanup.
Context {P : Type} (E : Environment P).
Implicit Types (w : World P).

Lemma removed_count_app (evs1 evs2 : list (Event P)) :
  removed_count (evs1 ++ evs2) = (removed_count evs1 + removed_count evs2)%nat.
Proof.
  induction evs1 as [|e evs1 IH]; [done|].
  destruct e as [| | | | | | | |?|? []|?|? ?]; cbn; by rewrite ?IH.
Qed.

(** The [rows.Next()] loop in full: what it counts, what it keeps and what
    it tries to remove. *)
Lemma remove_cache_dirs_counts rows : forall deleted_albums deleted_ids w,
  exists w' evs,
    remove_cache_dirs E rows deleted_albums deleted_ids w
    = ((deleted_albums + removed_count evs)%nat, deleted_ids ++ rows, w')
    /\ database w' = database w
    /\ cache w' = cache w
    /\ trace w' = trace w ++ evs
    /\ tx_discipline false evs = Some false
    /\ forall cache_path ok,
         RemoveAll_ev cache_path ok ∈ evs ->
         exists album_id,
           album_id ∈ rows
           /\ cache_path = GoPath.Join ["./image-cache"; Itoa album_id].
Proof.
  induction rows as [|album_id rest IH]; intros k ids w.
  - exists w, []. rewrite !app_nil_r, Nat.add_0_r. repeat split.
    by intros ? ? ?%elem_of_nil.
  - cbn -[GoPath.Join]. destruct (os_RemoveAll E (now w) _) eqn:Hrm.
    + destruct (IH (Datatypes.S k) (ids ++ [album_id])
                   (emit [RemoveAll_ev
                            (GoPath.Join ["./image-cache"; Itoa album_id])
                            true] w))
        as (w' & evs & -> & Hd & Hc & Ht & Htx & Hall).
      exists w', (RemoveAll_ev
                    (GoPath.Join ["./image-cache"; Itoa album_id]) true
                  :: evs).
      rewrite <- app_assoc.
      split; [cbn -[GoPath.Join]; do 2 f_equal; lia|].
      split; [done|]. split; [done|].
      split; [rewrite Ht; cbn -[GoPath.Join]; by rewrite <- app_assoc|].
      split; [done|].
      intros path ok [Heq|Hin]%elem_of_cons.
      * injection Heq as -> _. exists album_id.
        split; [apply list_elem_of_here|done].
      * destruct (Hall _ _ Hin) as (i & Hi & ->). exists i.
        split; [by apply list_elem_of_further|done].
    + destruct (IH k (ids ++ [album_id])
                   (emit [RemoveAll_ev
                            (GoPath.Join ["./image-cache"; Itoa album_id])
                            false;
                          Log_ev "ERROR: Could not delete unused cache folder: %s\n%s\n"
                            [GoPath.Join ["./image-cache"; Itoa album_id]]] w))
        as (w' & evs & -> & Hd & Hc & Ht & Htx & Hall).
      exists w',
        (RemoveAll_ev (GoPath.Join ["./image-cache"; Itoa album_id]) false
         :: Log_ev "ERROR: Could not delete unused cache folder: %s\n%s\n"
              [GoPath.Join ["./image-cache"; Itoa album_id]]
         :: evs).
      rewrite <- app_assoc.
      split; [reflexivity|]. split; [done|]. split; [done|].
      split; [rewrite Ht; cbn -[GoPath.Join]; by rewrite <- app_assoc|].
      split; [done|].
      intros path ok [Heq|Hin]%elem_of_cons.
      * injection Heq as -> _. exists album_id.
        split; [apply list_elem_of_here|done].
      * apply elem_of_cons in Hin as [Heq|Hin]; [discriminate Heq|].
        destruct (Hall _ _ Hin) as (i & Hi & ->). exists i.
        split; [by apply list_elem_of_further|done].
Qed.

End MoreCleanup.

(** X21. When the pass is given a visited path and its SELECT succeeds,
    its last log line reports the number of derived-cache directories it
    removed with success: failed removals are not counted, and the count
    does not depend on whether the DELETE that follows succeeds. *)
Theorem cleanupCache_reports_removed {P} (E : Environment P)
  (scanned_albums : list string) (user : User) (w : World P) :
  scanned_albums ≠ [] ->
  sql_fails E (now w) = false ->
  exists evs,
    trace (cleanupCache E scanned_albums user w)
    = trace w ++ evs
      ++ [Log_ev "Deleted %d unused albums from cache"
                 [Itoa (Z.of_nat (removed_count evs))]].
Proof.
  intros Hne Hsql. unfold cleanupCache.
  destruct scanned_albums as [|a V]; [done|].
  change (Nat.eqb (length (a :: V)) 0) with false. cbv iota. rewrite Hsql.
  destruct (remove_cache_dirs_counts E
              (select_unscanned_ids (UserID user) (a :: V) (database w))
              0%nat [] (emit [Query_ev true] w))
    as (w' & evs & -> & _ & _ & Ht & _ & _).
  cbn [app Nat.add].
  assert (forall tail : list (Event P),
            removed_count tail = 0%nat ->
            removed_count (Query_ev true :: evs ++ tail) = removed_count evs)
    as Hcount.
  { intros tail H0.
    change (Query_ev true :: evs ++ tail) with ([Query_ev true] ++ evs ++ tail).
    rewrite !removed_count_app, H0. cbn. lia. }
  destruct (Nat.ltb _ _); [destruct (sql_fails E (now w'))|].
  - exists (Query_ev true
            :: evs ++ [Delete_ev false;
                       Log_ev "ERROR: Could not delete old albums from database:\n%s\n"
                              []]).
    rewrite Hcount by reflexivity.
    cbn [trace emit]. rewrite Ht. cbn [trace emit].
    repeat (progress (cbn [app]) || rewrite <- app_assoc). reflexivity.
  - exists (Query_ev true :: evs ++ [Delete_ev true]).
    rewrite Hcount by reflexivity.
    cbn [trace emit set_database]. rewrite Ht. cbn [trace emit].
    repeat (progress (cbn [app]) || rewrite <- app_assoc). reflexivity.
  - exists (Query_ev true :: evs ++ []).
    rewrite Hcount by reflexivity.
    cbn [trace emit]. rewrite Ht. cbn [trace emit].
    rewrite app_nil_r.
    repeat (progress (cbn [app]) || rewrite <- app_assoc). reflexivity.
Qed.

Lemma cleanupCache_reports_removed_witness :
  exists evs,
    trace (cleanupCache E_sql ["A"; "A/B"] user_R (fresh_world db_abc))
    = trace (fresh_world db_abc) ++ evs
      ++ [Log_ev "Deleted %d unused albums from cache"
                 [Itoa (Z.of_nat (removed_count evs))]].
Proof.
  apply (cleanupCache_reports_removed E_sql ["A"; "A/B"] user_R
           (fresh_world db_abc)).
  - discriminate.
  - reflexivity.
Defined.

(** X22. Whatever fails, the pass changes the store in one way only, by
    deleting the album rows whose ids it selected, or not at all; it does
    not touch the cache of the scan; and every directory it tries to
    remove is the derived-cache directory of a selected id.  It begins no
    transaction. *)
Theorem cleanupCache_touches_only_selected {P} (E : Environment P)
  (scanned_albums : list string) (user : User) (w : World P) :
  (database (cleanupCache E scanned_albums user w) = database w
   \/ database (cleanupCache E scanned_albums user w)
      = delete_albums
          (select_unscanned_ids (UserID user) scanned_albums (database w))
          (database w))
  /\ cache (cleanupCache E scanned_albums user w) = cache w
  /\ exists evs,
       trace (cleanupCache E scanned_albums user w) = trace w ++ evs
       /\ tx_discipline false evs = Some false
       /\ forall cache_path ok,
            RemoveAll_ev cache_path ok ∈ evs ->
            exists album_id,
              album_id
              ∈ select_unscanned_ids (UserID user) scanned_albums (database w)
              /\ cache_path = GoPath.Join ["./image-cache"; Itoa album_id].
Proof.
  unfold cleanupCache.
  destruct (Nat.eqb _ _).
  { split; [by left|]. split; [done|]. exists []. rewrite app_nil_r.
    repeat split. by intros ? ? ?%elem_of_nil. }
  destruct (sql_fails E (now w)).
  { split; [by left|]. split; [done|]. eexists. repeat split.
    intros path ok Hin.
    repeat (apply elem_of_cons in Hin as [Hin|Hin]; [discriminate Hin|]).
    by apply elem_of_nil in Hin. }
  set (rows := select_unscanned_ids (UserID user) scanned_albums (database w)).
  destruct (remove_cache_dirs_counts E rows 0%nat [] (emit [Query_ev true] w))
    as (w' & evs & -> & Hd & Hc & Ht & Htx & Hall).
  cbn [app Nat.add].
  assert (forall tail : list (Event P),
            (forall path ok, RemoveAll_ev path ok ∉ tail) ->
            forall path ok,
              RemoveAll_ev path ok ∈ Query_ev true :: evs ++ tail ->
              exists album_id,
                album_id ∈ rows
                /\ path = GoPath.Join ["./image-cache"; Itoa album_id])
    as Hsel.
  { intros tail Htail path ok Hin.
    apply elem_of_cons in Hin as [Hin|Hin]; [discriminate Hin|].
    apply elem_of_app in Hin as [Hin|Hin]; [by eapply Hall|].
    by destruct (Htail _ _ Hin). }
  assert (forall (l : list (Event P)) path ok,
            Forall (fun e => forall p o, e ≠ RemoveAll_ev p o) l ->
            RemoveAll_ev path ok ∉ l) as Hnone.
  { intros l path ok Hl Hin. eapply Forall_forall in Hl; [|exact Hin].
    by destruct (Hl path ok). }
  destruct (Nat.ltb _ _); [destruct (sql_fails E (now w'))|].
  - split; [left; exact Hd|]. split; [exact Hc|].
    eexists (Query_ev true :: evs ++ [Delete_ev false; _; _]).
    cbn [trace emit]. rewrite Ht. cbn [trace emit].
    rewrite <- !app_assoc. cbn [app]. split; [done|]. split.
    + cbn. by rewrite tx_discipline_app, Htx.
    + apply Hsel. intros path ok. apply Hnone. by repeat constructor.
  - split; [right; cbn [database emit set_database]; by rewrite Hd|].
    split; [exact Hc|].
    eexists (Query_ev true :: evs ++ [Delete_ev true; _]).
    cbn [trace emit set_database]. rewrite Ht. cbn [trace emit].
    rewrite <- !app_assoc. cbn [app]. split; [done|]. split.
    + cbn. by rewrite tx_discipline_app, Htx.
    + apply Hsel. intros path ok. apply Hnone. by repeat constructor.
  - split; [left; exact Hd|]. split; [exact Hc|].
    eexists (Query_ev true :: evs ++ [_]).
    cbn [trace emit]. rewrite Ht. cbn [trace emit].
    rewrite <- !app_assoc. cbn [app]. split; [done|]. split.
    + cbn. by rewrite tx_discipline_app, Htx.
    + apply Hsel. intros path ok. apply Hnone. by repeat constructor.
Qed.
